(** * autoscout24-scraper: the crawl-and-extract pipeline, embedded and verified

    The development follows the Python sources:
    - [utils/data_cleaner.py]   text cleanup, number, price and power parsing,
                                [normalize_listing];
    - [extractors/dealer_extractor.py]   [DealerExtractor.build_summary];
    - [extractors/listing_extractor.py]  search-page expansion, seed
                                preparation and the scrape loop.

    Modelling conventions.
    - A Python [str] is a Rocq [string]: the UTF-8 bytes of the text.  The
      character classes used by [str.strip], by the regular expressions
      ([\s], [\d]) and by [str.upper] are the ones Python has on the ASCII
      range; bytes above 127 are neither white space nor digits and have no
      case.  The euro sign is its three UTF-8 bytes.
    - A Python [dict] with string keys is a [gmap string _], a [set] of
      strings a [gset string].
    - [int] is [Z] (Python integers do not wrap around). *)

From Stdlib Require Import ZArith Ascii String List Lia Bool DecimalString.
From stdpp Require Import base option list strings gmap sets.

Local Open Scope string_scope.
Local Open Scope Z_scope.

(** ** Character classes *)

(** [str.isspace] on the ASCII range: TAB, LF, VT, FF, CR, the four
    separators FS, GS, RS, US (28..31) and the space.  [str.strip()] and the
    regular expression class [\s] both use this class. *)
Definition py_isspace (c : ascii) : bool :=
  let n := N_of_ascii c in
  ((9 <=? n) && (n <=? 13) || (28 <=? n) && (n <=? 32))%N.

(** The regular expression class [\d] on the ASCII range. *)
Definition py_isdigit (c : ascii) : bool :=
  let n := N_of_ascii c in
  ((48 <=? n) && (n <=? 57))%N.

(** [str.upper] on one ASCII character. *)
Definition upper_char (c : ascii) : ascii :=
  let n := N_of_ascii c in
  if ((97 <=? n) && (n <=? 122))%N then ascii_of_N (n - 32) else c.

(** [str.upper()]. *)
Fixpoint upper (s : string) : string :=
  match s with
  | EmptyString => EmptyString
  | String c r => String (upper_char c) (upper r)
  end.

(** [bool(s)] for a string: the empty string is falsy. *)
Definition nonempty (s : string) : bool :=
  match s with
  | EmptyString => false
  | String _ _ => true
  end.

(** ** [str.strip()] *)

Fixpoint lstrip (s : string) : string :=
  match s with
  | EmptyString => EmptyString
  | String c r => if py_isspace c then lstrip r else s
  end.

Fixpoint rstrip (s : string) : string :=
  match s with
  | EmptyString => EmptyString
  | String c r =>
      match rstrip r with
      | EmptyString => if py_isspace c then EmptyString else String c EmptyString
      | r' => String c r'
      end
  end.

Definition strip (s : string) : string := rstrip (lstrip s).

(** ** [re.sub(r"\s+", " ", text)]

    The scan replaces every maximal run of white space by one space;
    [in_run] records that the previous character belonged to a run that has
    already been replaced. *)
Fixpoint sub_ws_runs (in_run : bool) (s : string) : string :=
  match s with
  | EmptyString => EmptyString
  | String c r =>
      if py_isspace c
      then if in_run then sub_ws_runs true r
           else String " " (sub_ws_runs true r)
      else String c (sub_ws_runs false r)
  end.

Definition collapse_ws (s : string) : string := sub_ws_runs false s.

(** [clean_text] on a value that is a string: strip, collapse, and map the
    empty result to [None] ([text or None]). *)
Definition clean_str (s : string) : option string :=
  let text := strip s in
  let text := collapse_ws text in
  if nonempty text then Some text else None.

(** ** Python values *)

(** The values a record holds: [None], a string, an integer, a list.  The
    parser produces [None], strings and lists of strings; the normalizer
    adds integers. *)
#[warnings="-register-all"]
Inductive value : Type :=
  | VNone
  | VStr (s : string)
  | VInt (n : Z)
  | VList (l : list value).

(** [bool(v)]: [None], the empty string, [0] and the empty list are falsy. *)
Definition truthy (v : value) : bool :=
  match v with
  | VNone => false
  | VStr s => nonempty s
  | VInt n => negb (n =? 0)
  | VList l => match l with [] => false | _ :: _ => true end
  end.

(** An [Optional[str]] stored in a record. *)
Definition of_opt (o : option string) : value :=
  match o with
  | Some s => VStr s
  | None => VNone
  end.

(** [d.get(key)]: [None] for a missing key. *)
Definition get (d : gmap string value) (key : string) : value :=
  default VNone (d !! key).

(** [d.get(key)] read at type [Optional[str]]; used where the value was
    stored by [clean_text] and so is [None] or a string. *)
Definition get_text (d : gmap string value) (key : string) : option string :=
  match d !! key with
  | Some (VStr s) => Some s
  | _ => None
  end.

(** ** Substrings: [needle in s] *)

(** [s] starts with [needle]. *)
Fixpoint starts_with (needle s : string) : bool :=
  match needle with
  | EmptyString => true
  | String a n =>
      match s with
      | EmptyString => false
      | String b r => Ascii.eqb a b && starts_with n r
      end
  end.

Fixpoint contains (needle s : string) : bool :=
  starts_with needle s ||
  match s with
  | EmptyString => false
  | String _ r => contains needle r
  end.

(** ** Digits and [int()] *)

(** [re.sub(r'[^\d]', '', s)]: every character that is not a digit is removed. *)
Fixpoint remove_non_digits (s : string) : string :=
  match s with
  | EmptyString => EmptyString
  | String c r =>
      if py_isdigit c then String c (remove_non_digits r)
      else remove_non_digits r
  end.

Definition digit_value (c : ascii) : Z := Z.of_N (N_of_ascii c) - 48.

Fixpoint int_of_digits_from (acc : Z) (s : string) : Z :=
  match s with
  | EmptyString => acc
  | String c r => int_of_digits_from (10 * acc + digit_value c) r
  end.

(** [int(s)] for a non-empty string of digits.  Python integers are
    unbounded; the interpreter's optional limit on the number of digits that
    [int()] converts is not modelled, so the [except ValueError] branches of
    the source are never taken on a digit string. *)
Definition int_of_digits (s : string) : Z := int_of_digits_from 0 s.

(** [s.replace(ch, '')] for a one-character [ch]. *)
Fixpoint remove_char (ch : ascii) (s : string) : string :=
  match s with
  | EmptyString => EmptyString
  | String c r =>
      if Ascii.eqb c ch then remove_char ch r else String c (remove_char ch r)
  end.

(** [re.findall(r"\d+", s)]: the maximal runs of digits, left to right.
    [cur] is the run being read. *)
Fixpoint findall_digits_from (cur : string) (s : string) : list string :=
  match s with
  | EmptyString => if nonempty cur then [cur] else []
  | String c r =>
      if py_isdigit c then findall_digits_from (cur +:+ String c EmptyString) r
      else (if nonempty cur then [cur] else []) ++ findall_digits_from EmptyString r
  end.

Definition findall_digits (s : string) : list string :=
  findall_digits_from EmptyString s.

(** [''.join(parts)]. *)
Fixpoint join_empty (parts : list string) : string :=
  match parts with
  | [] => EmptyString
  | p :: rest => p +:+ join_empty rest
  end.

(** [extract_number]. *)
Definition extract_number (value : option string) : option Z :=
  match value with
  | None => None
  | Some v =>
      if nonempty v then
        let digits :=
          findall_digits (remove_char " " (remove_char "." v)) in
        match digits with
        | [] => None
        | _ :: _ => Some (int_of_digits (join_empty digits))
        end
      else None
  end.

(** ** [parse_price] *)

Definition EURO_SIGN : string := "€".

Definition detect_currency (s : string) : option string :=
  if contains EURO_SIGN s || contains "EUR" (upper s) then Some "EUR"
  else if contains "$" s || contains "USD" (upper s) then Some "USD"
  else if contains "CHF" (upper s) then Some "CHF"
  else None.

Definition parse_price (price_str : option string) : option Z * option string :=
  match price_str with
  | None => (None, None)
  | Some p =>
      if nonempty p then
        let s := strip p in
        let currency := detect_currency s in
        let raw_digits := remove_non_digits s in
        if nonempty raw_digits then (Some (int_of_digits raw_digits), currency)
        else (None, currency)
      else (None, None)
  end.

(** [parse_mileage]. *)
Definition parse_mileage (mileage_str : option string) : option Z :=
  extract_number mileage_str.

(** ** [parse_power]

    [re.search(r"(\d+)\s*kW", s)] and its [hp] sibling.  At a start position
    the greedy [\d+] takes the whole run of digits and the greedy [\s*] the
    whole run of white space; giving back a digit or a white-space character
    leaves a character that neither [\s] nor the unit matches, so
    backtracking never finds another match at that position.  [re.search]
    tries the start positions from left to right. *)
Fixpoint span_digits (s : string) : string * string :=
  match s with
  | EmptyString => (EmptyString, EmptyString)
  | String c r =>
      if py_isdigit c
      then let '(d, rest) := span_digits r in (String c d, rest)
      else (EmptyString, s)
  end.

Definition match_number_unit (unit_at : string -> bool) (s : string) : option string :=
  let '(d, rest) := span_digits s in
  if nonempty d && unit_at (lstrip rest) then Some d else None.

Fixpoint search_number_unit (unit_at : string -> bool) (s : string) : option string :=
  match match_number_unit unit_at s with
  | Some d => Some d
  | None =>
      match s with
      | EmptyString => None
      | String _ r => search_number_unit unit_at r
      end
  end.

(** The literal [kW], case-sensitive. *)
Definition kw_at (s : string) : bool := starts_with "kW" s.

(** The literal [hp] under [re.IGNORECASE]. *)
Definition hp_at (s : string) : bool :=
  match s with
  | String a (String b _) =>
      Ascii.eqb (upper_char a) "H" && Ascii.eqb (upper_char b) "P"
  | _ => false
  end.

Definition parse_power (power_str : option string) : option Z * option Z :=
  match power_str with
  | None => (None, None)
  | Some p =>
      if nonempty p then
        let kw_match := search_number_unit kw_at p in
        let hp_match := search_number_unit hp_at p in
        (int_of_digits <$> kw_match, int_of_digits <$> hp_match)
      else (None, None)
  end.

(** ** [clean_text] and [normalize_listing] *)

Section Normalizer.

(** [str(l)] for a list [l] (its [repr]); the normalizer only meets it when
    a text field holds a list, and no property below depends on the
    rendering. *)
Variable str_of_list : list value -> string.

(** [str(v)]. *)
Definition py_str (v : value) : string :=
  match v with
  | VNone => "None"
  | VStr s => s
  | VInt n => NilZero.string_of_int (Z.to_int n)
  | VList l => str_of_list l
  end.

Definition clean_text (value : value) : option string :=
  match value with
  | VNone => None
  | _ => clean_str (py_str value)
  end.

Definition TEXT_KEYS : list string :=
  [ "title"; "url"; "mark"; "model"; "modelVersion"; "location";
    "dealerName"; "dealerRatings"; "price"; "milage"; "gearbox";
    "firstRegistration"; "fuelType"; "power"; "seller"; "contactName";
    "contactPhone"; "bodyType"; "drivetrain"; "seats"; "engineSize";
    "gears"; "emissionClass"; "colour"; "manufacturerColour";
    "productionDate" ].

Definition NUMBER_KEYS : list (string * string) :=
  [ ("seats", "seatsNum"); ("engineSize", "engineSizeCC");
    ("gears", "gearsNum") ].

Definition FEATURE_KEYS : list string :=
  [ "comfort"; "media"; "safety"; "extras" ].

(** [listing[key] = clean_text(listing.get(key))]. *)
Definition clean_field (listing : gmap string value) (key : string)
  : gmap string value :=
  <[key := of_opt (clean_text (get listing key))]> listing.

(** [if val is not None: listing[dest] = val]. *)
Definition set_if_some (dest : string) (val : option value)
    (listing : gmap string value) : gmap string value :=
  match val with
  | Some v => <[dest := v]> listing
  | None => listing
  end.

Definition number_field (listing : gmap string value) (sd : string * string)
  : gmap string value :=
  let '(src, dest) := sd in
  set_if_some dest (VInt <$> extract_number (get_text listing src)) listing.

(** [[clean_text(v) for v in value if clean_text(v)]]: a cleaned text is
    never empty, so the test keeps exactly the elements that clean to a
    string. *)
Definition clean_elements (l : list value) : list value :=
  omap (fun v => VStr <$> clean_text v) l.

(** [re.split(r"[;,]", s)]; [cur] is the part being read. *)
Fixpoint split_from (cur : string) (s : string) : list string :=
  match s with
  | EmptyString => [cur]
  | String c r =>
      if Ascii.eqb c ";" || Ascii.eqb c ","
      then cur :: split_from EmptyString r
      else split_from (cur +:+ String c EmptyString) r
  end.

Definition re_split (s : string) : list string := split_from EmptyString s.

Definition feature_field (listing : gmap string value) (feature_key : string)
  : gmap string value :=
  let value := get listing feature_key in
  match value with
  | VList l => <[feature_key := VList (clean_elements l)]> listing
  | VStr s =>
      let parts := clean_elements (VStr <$> re_split s) in
      <[feature_key := VList parts]> listing
  | VNone => <[feature_key := VList []]> listing
  | VInt _ =>
      <[feature_key := VList [of_opt (clean_text (VStr (py_str value)))]]> listing
  end.

(** The image loop: [seen] is the set of images already appended. *)
Fixpoint images_loop (images : list value) (seen : gset string)
    (normalized : list string) : list string :=
  match images with
  | [] => normalized
  | img :: rest =>
      match clean_text img with
      | Some img =>
          if bool_decide (img ∈ seen) then images_loop rest seen normalized
          else images_loop rest ({[img]} ∪ seen) (normalized ++ [img])
      | None => images_loop rest seen normalized
      end
  end.

Definition images_field (listing : gmap string value) : gmap string value :=
  let images := get listing "images" in
  let images := if truthy images then images else VList [] in
  let images := match images with VStr _ => VList [images] | _ => images end in
  match images with
  | VList l => <["images" := VList (VStr <$> images_loop l ∅ [])]> listing
  | _ => <["images" := VList []]> listing
  end.

Definition normalize_listing (listing : gmap string value) : gmap string value :=
  let listing := foldl clean_field listing TEXT_KEYS in
  let '(raw_price, currency) := parse_price (get_text listing "price") in
  let listing := set_if_some "rawPrice" (VInt <$> raw_price) listing in
  let listing := set_if_some "currency" (VStr <$> currency) listing in
  let mileage_km := parse_mileage (get_text listing "milage") in
  let listing := set_if_some "mileageKm" (VInt <$> mileage_km) listing in
  let '(kW, hp) := parse_power (get_text listing "power") in
  let listing := set_if_some "powerKW" (VInt <$> kW) listing in
  let listing := set_if_some "powerHP" (VInt <$> hp) listing in
  let listing := foldl number_field listing NUMBER_KEYS in
  let listing := foldl feature_field listing FEATURE_KEYS in
  images_field listing.

End Normalizer.

(** ** Exceptions *)

(** A call either returns or raises; [exc] names the exception. *)
Inductive outcome (A : Type) : Type :=
  | Returned (a : A)
  | Raised (exc : string).
Arguments Returned {A} a.
Arguments Raised {A} exc.

#[global] Instance outcome_bind : MBind outcome := fun A B k m =>
  match m with
  | Returned a => k a
  | Raised e => Raised e
  end.

(** ** [DealerExtractor.build_summary] *)

Definition UNKNOWN_DEALER : string := "Unknown dealer".

(** [(rec.get('dealerName') or '').strip()], then the sentinel for a blank
    name.  A truthy value that is not a string has no [strip] method. *)
Definition dealer_name_of (rec : gmap string value) : outcome string :=
  let v := get rec "dealerName" in
  let v := if truthy v then v else VStr EmptyString in
  match v with
  | VStr s =>
      let dealer_name := strip s in
      Returned (if nonempty dealer_name then dealer_name else UNKNOWN_DEALER)
  | _ => Raised "AttributeError"
  end.

(** The entry [setdefault] inserts for a dealer that is not in the summary
    yet. *)
Definition new_entry (dealer_name : string) (rec : gmap string value)
  : gmap string value :=
  <["dealerName" := VStr dealer_name]>
  (<["location" := get rec "location"]>
  (<["dealerRatings" := get rec "dealerRatings"]>
  (<["listingCount" := VInt 0]> ∅))).

(** [d.setdefault(key, dflt)]: the dictionary after the call and the value
    the call returns. *)
Definition setdefault {V} (d : gmap string V) (key : string) (dflt : V)
  : gmap string V * V :=
  match d !! key with
  | Some v => (d, v)
  | None => (<[key := dflt]> d, dflt)
  end.

(** One iteration of the loop.  The state is [summary] and [counter]; the
    entry returned by [setdefault] is the object stored in [summary], so the
    assignment to its [listingCount] updates the stored entry. *)
Definition summary_step
    (st : gmap string (gmap string value) * gmap string Z)
    (rec : gmap string value)
  : outcome (gmap string (gmap string value) * gmap string Z) :=
  let '(summary, counter) := st in
  dealer_name ← dealer_name_of rec;
  let counter := <[dealer_name := default 0 (counter !! dealer_name) + 1]> counter in
  let '(summary, dealer_entry) :=
    setdefault summary dealer_name (new_entry dealer_name rec) in
  let dealer_entry :=
    <["listingCount" := VInt (default 0 (counter !! dealer_name))]> dealer_entry in
  Returned (<[dealer_name := dealer_entry]> summary, counter).

Fixpoint summary_loop
    (listings : list (gmap string value))
    (st : gmap string (gmap string value) * gmap string Z)
  : outcome (gmap string (gmap string value) * gmap string Z) :=
  match listings with
  | [] => Returned st
  | rec :: rest => st' ← summary_step st rec; summary_loop rest st'
  end.

Definition build_summary (listings : list (gmap string value))
  : outcome (gmap string (gmap string value)) :=
  st ← summary_loop listings (∅, ∅); Returned (fst st).

(** ** [ListingExtractor] *)

Definition lower_char (c : ascii) : ascii :=
  let n := N_of_ascii c in
  if ((65 <=? n) && (n <=? 90))%N then ascii_of_N (n + 32) else c.

Fixpoint lower (s : string) : string :=
  match s with
  | EmptyString => EmptyString
  | String c r => String (lower_char c) (lower r)
  end.

(** [len(l)]. *)
Definition len {A} (l : list A) : Z := Z.of_nat (length l).

(** [if u not in l: l.append(u)]. *)
Definition append_new (l : list string) (u : string) : list string :=
  if bool_decide (u ∈ l) then l else l ++ [u].

(** [l[:n]]: a negative [n] counts from the end. *)
Definition slice_to {A} (n : Z) (l : list A) : list A :=
  if 0 <=? n then take (Z.to_nat n) l
  else take (length l - Z.to_nat (- n))%nat l.

(** [bool(o)] for an [Optional[str]]. *)
Definition truthy_opt (o : option string) : bool :=
  match o with
  | Some s => nonempty s
  | None => false
  end.

Section Crawler.

(** The network and the markup library are the environment of the
    extractor.
    - [fetch_url url]: the body [_fetch_url] returns, [None] when the
      request fails (the [RequestException] is caught and logged there).
    - [parse_search_page html base_url]: the detail URLs of a result page
      and its next-page link.
    - [parse_listing_page html url]: the raw record of a detail page; the
      markup library may raise.
    - [url_path url]: [urlparse(url).path]. *)
Variable fetch_url : string -> option string.
Variable parse_search_page : string -> string -> list string * option string.
Variable parse_listing_page : string -> string -> outcome (gmap string value).
Variable url_path : string -> string.
Variable str_of_list : list value -> string.

(** [self.max_records]. *)
Variable max_records : Z.

Definition is_detail_url (url : string) : bool :=
  let path := lower (url_path url) in
  contains "/angebote/" path || contains "/offers/" path.

(** The [while] loop of [_collect_listing_urls_from_search].  [fuel]
    bounds the number of times the loop condition is evaluated; [None]
    means the bound was hit.  [log] records the URLs handed to
    [_fetch_url], in order. *)
Fixpoint collect_loop (fuel : nat) (next_url : option string)
    (listing_urls : list string) (visited_pages : gset string)
    (log : list string) : option (list string * list string) :=
  match fuel with
  | O => None
  | S fuel' =>
      match next_url with
      | Some u =>
          if nonempty u && (len listing_urls <? max_records) then
            if bool_decide (u ∈ visited_pages) then Some (listing_urls, log)
            else
              let visited_pages := {[u]} ∪ visited_pages in
              let log := (log ++ [u])%list in
              match fetch_url u with
              | Some html =>
                  if nonempty html then
                    let '(page_urls, next_url) := parse_search_page html u in
                    let listing_urls := foldl append_new listing_urls page_urls in
                    if truthy_opt next_url
                    then collect_loop fuel' next_url listing_urls visited_pages log
                    else Some (listing_urls, log)
                  else Some (listing_urls, log)
              | None => Some (listing_urls, log)
              end
          else Some (listing_urls, log)
      | None => Some (listing_urls, log)
      end
  end.

Definition collect_listing_urls_from_search (fuel : nat) (start_url : string)
    (log : list string) : option (list string * list string) :=
  collect_loop fuel (Some start_url) [] ∅ log.

(** The [for] loop of [_prepare_listing_urls]; returning the accumulator
    before the seeds are exhausted is the [break]. *)
Fixpoint prepare_loop (fuel : nat) (start_urls : list string)
    (listing_urls : list string) (log : list string)
  : option (list string * list string) :=
  match start_urls with
  | [] => Some (listing_urls, log)
  | start_url :: rest =>
      let start_url := strip start_url in
      if negb (nonempty start_url) then prepare_loop fuel rest listing_urls log
      else if is_detail_url start_url then
        prepare_loop fuel rest (append_new listing_urls start_url) log
      else
        match collect_listing_urls_from_search fuel start_url log with
        | None => None
        | Some (urls, log) =>
            let listing_urls := foldl append_new listing_urls urls in
            if max_records <=? len listing_urls then Some (listing_urls, log)
            else prepare_loop fuel rest listing_urls log
        end
  end.

Definition prepare_listing_urls (fuel : nat) (start_urls : list string)
  : option (list string * list string) :=
  match prepare_loop fuel start_urls [] [] with
  | None => None
  | Some (listing_urls, log) =>
      let listing_urls :=
        if max_records <? len listing_urls
        then slice_to max_records listing_urls
        else listing_urls in
      Some (listing_urls, log)
  end.

Definition scrape_single_listing (url : string)
  : outcome (option (gmap string value)) :=
  match fetch_url url with
  | Some html =>
      if nonempty html then
        raw_record ← parse_listing_page html url;
        Returned (Some (normalize_listing str_of_list raw_record))
      else Returned None
  | None => Returned None
  end.

(** [bool(record)] for [Optional[Dict]]: [None] and the empty dictionary
    are falsy. *)
Definition truthy_record (record : option (gmap string value)) : bool :=
  match record with
  | Some r => negb (bool_decide (r = ∅))
  | None => false
  end.

(** The order in which [as_completed] yields the submitted futures. *)
Variable as_completed :
  list (string * outcome (option (gmap string value))) ->
  list (string * outcome (option (gmap string value))).

(** The body of the [for future in as_completed(...)] loop:
    [future.result()] re-raises what the task raised, and the
    [except Exception] clause logs it and continues. *)
Definition collect_result (results : list (gmap string value))
    (future : string * outcome (option (gmap string value)))
  : list (gmap string value) :=
  match snd future with
  | Raised _ => results
  | Returned record =>
      if truthy_record record
      then match record with Some r => results ++ [r] | None => results end
      else results
  end.

(** [scrape] from the point where [urls] is known. *)
Definition scrape_urls (urls : list string) : outcome (list (gmap string value)) :=
  match urls with
  | [] => Returned []
  | _ :: _ =>
      let future_to_url := (fun url => (url, scrape_single_listing url)) <$> urls in
      Returned (foldl collect_result [] (as_completed future_to_url))
  end.

Definition scrape (fuel : nat) (start_urls : list string)
  : option (outcome (list (gmap string value))) :=
  match prepare_listing_urls fuel start_urls with
  | None => None
  | Some (urls, _) => Some (scrape_urls urls)
  end.

End Crawler.

(** * Specification vocabulary *)

(** ** The normal form of a cleaned text

    [tidy_from need_char s]: every white-space character of [s] is one space
    followed by a character that is not white space; with [need_char], [s]
    moreover starts with such a character. *)
Fixpoint tidy_from (need_char : bool) (s : string) : bool :=
  match s with
  | EmptyString => negb need_char
  | String c r =>
      if py_isspace c
      then negb need_char && Ascii.eqb c " " && tidy_from true r
      else tidy_from false r
  end.

(** A cleaned text, said without reference to the cleaning functions: it is
    not empty, it does not start with white space, and every white-space
    character in it is one space followed by a character that is not white
    space (so there is no run of white space and none at the end). *)
Definition text_normal (s : string) : Prop :=
  s ≠ EmptyString ∧
  (∀ c, String.get 0 s = Some c → py_isspace c = false) ∧
  (∀ i c, String.get i s = Some c → py_isspace c = true →
     c = " "%char ∧ ∃ d, String.get (S i) s = Some d ∧ py_isspace d = false).


(** [needle] occurs in [s]. *)
Definition occurs (needle s : string) : Prop :=
  ∃ pre post, s = pre +:+ needle +:+ post.

(** All characters of [s] satisfy [p]. *)
Fixpoint all_chars (p : ascii -> bool) (s : string) : bool :=
  match s with
  | EmptyString => true
  | String c r => p c && all_chars p r
  end.


Fixpoint last_nonspace (needle : string) : bool :=
  match needle with
  | EmptyString => false
  | String a EmptyString => negb (py_isspace a)
  | String _ r => last_nonspace r
  end.





(** The keys of the record literal that [parse_listing_page] returns. *)
Definition RAW_KEYS : list string :=
  TEXT_KEYS ++ FEATURE_KEYS ++ ["images"].

(** A raw record has no other keys than those the parser writes. *)
Definition raw_record (r : gmap string value) : Prop :=
  ∀ k, is_Some (r !! k) → k ∈ RAW_KEYS.




(** Keep the first occurrence of every element, in order. *)
Fixpoint dedup_first (l : list string) : list string :=
  match l with
  | [] => []
  | x :: r => x :: filter (fun y => y ≠ x) (dedup_first r)
  end.


(** The keys [normalize_listing] writes after the text fields: the derived
    fields, the feature lists and the images. *)
Definition DERIVED_KEYS : list string :=
  [ "rawPrice"; "currency"; "mileageKm"; "powerKW"; "powerHP";
    "seatsNum"; "engineSizeCC"; "gearsNum" ].

Definition LATE_KEYS : list string :=
  DERIVED_KEYS ++ FEATURE_KEYS ++ ["images"].


(** ** Dealer summary *)

#[global] Instance outcome_eq_dec {A} `{EqDecision A} : EqDecision (outcome A).
Proof. solve_decision. Defined.

(** The records of the dealer [d], in the order of the listing. *)
Definition records_of (d : string) (listings : list (gmap string value))
  : list (gmap string value) :=
  filter (fun r => dealer_name_of r = Returned d) listings.

(** The entry the summary holds for a dealer whose first record is [r0] and
    who has [count] records. *)
Definition entry_of (d : string) (r0 : gmap string value) (count : Z)
  : gmap string value :=
  <["listingCount" := VInt count]> (new_entry d r0).

(** The state of the loop of [build_summary] after the records [seen]. *)
Definition summary_state (seen : list (gmap string value))
    (st : gmap string (gmap string value) * gmap string Z) : Prop :=
  ∀ d,
    default 0 (snd st !! d) = len (records_of d seen) ∧
    fst st !! d =
      (fun r0 => entry_of d r0 (len (records_of d seen))) <$> head (records_of d seen).

(** The record has a dealer name: [build_summary] can read it without
    raising (the field is a text, [None], missing or falsy). *)
Definition dealer_named (r : gmap string value) : Prop :=
  ∃ d, dealer_name_of r = Returned d.


(** ** Search pages as a chain *)

Section Pagination.

Variable fetch_url : string -> option string.
Variable parse_search_page : string -> string -> list string * option string.

(** The detail URLs the loop body takes from the page at [u]: none when the
    fetch fails or the body is empty. *)
Definition page_listing_urls (u : string) : list string :=
  match fetch_url u with
  | Some html =>
      if nonempty html then fst (parse_search_page html u) else []
  | None => []
  end.

(** The next-page link the loop follows from the page at [u]: none when the
    fetch fails, the body is empty, or the page has no (or an empty) link. *)
Definition next_page (u : string) : option string :=
  match fetch_url u with
  | Some html =>
      if nonempty html then
        let next := snd (parse_search_page html u) in
        if truthy_opt next then next else None
      else None
  | None => None
  end.

(** The [n]-th page URL on the chain of next-page links that starts at
    [start]; [None] once the chain has ended. *)
Fixpoint page_chain (start : option string) (n : nat) : option string :=
  match start with
  | Some u =>
      if nonempty u then
        match n with
        | O => Some u
        | S n' => page_chain (next_page u) n'
        end
      else None
  | None => None
  end.

(** Merging the detail URLs of one more page into the accumulator. *)
Definition merge_page (listing_urls : list string) (u : string) : list string :=
  foldl append_new listing_urls (page_listing_urls u).

(** The accumulator after the first [n] pages of the chain from [start]
    have been merged into [listing_urls]. *)
Fixpoint collected (start : option string) (listing_urls : list string)
    (n : nat) : list string :=
  match n with
  | O => listing_urls
  | S n' =>
      match start with
      | Some u =>
          if nonempty u
          then collected (next_page u) (merge_page listing_urls u) n'
          else listing_urls
      | None => listing_urls
      end
  end.

(** [self.max_records]. *)
Variable max_records : Z.

(** At position [i] the chain from [next] has ended, or has met a visited
    page or one of its own earlier pages, or the pages before it have
    filled the accumulator up to the cap. *)
Definition chain_stops (next : option string) (listing_urls : list string)
    (visited : gset string) (i : nat) : Prop :=
  page_chain next i = None ∨
  (∃ u, page_chain next i = Some u ∧
        (u ∈ visited ∨ ∃ i', (i' < i)%nat ∧ page_chain next i' = Some u)) ∨
  max_records ≤ len (collected next listing_urls i).

(** The expansion of [seed] is bounded by [j] pages: the chain of next-page
    links from [seed] has ended or come back to an earlier page at
    position [j], or its first [j] pages fill the cap. *)
Definition expansion_bounded (seed : string) (j : nat) : Prop :=
  (∃ i, (i < j)%nat ∧ page_chain (Some seed) i = page_chain (Some seed) j) ∨
  max_records ≤ len (collected (Some seed) [] j).

(** The expansion of the seed [s] is bounded by at most [d] pages. *)
Definition seed_settles (d : nat) (s : string) : Prop :=
  ∃ j, (j ≤ d)%nat ∧ expansion_bounded (strip s) j.

End Pagination.

(** ** The scrape loop *)

(** The record a task yields, when it yields one. *)
Definition task_record (task : outcome (option (gmap string value)))
  : option (gmap string value) :=
  match task with
  | Returned (Some r) => Some r
  | _ => None
  end.

(** * Example data *)

(** A raw record for the examples: a price, a mileage, a power, a feature
    string and an image list. *)
Definition example_raw : gmap string value :=
  {[ "url" := VStr "https://www.autoscout24.com/offers/bmw-320d";
     "price" := VStr "  € 31,980 ";
     "milage" := VStr "161,415   km";
     "power" := VStr "240 kW (326 hp)";
     "seats" := VStr EmptyString;
     "comfort" := VStr "ABS; Airbag,Cruise control";
     "safety" := VList [VStr " ESP "; VStr EmptyString; VStr "ESP"; VNone];
     "images" := VList [VStr "a.jpg"; VStr "a.jpg"; VStr "b.jpg"] ]}.

(** Two listings of one dealer at different locations, and one without a
    dealer name. *)
Definition dealer_rec_1 : gmap string value :=
  {[ "dealerName" := VStr "A"; "location" := VStr "Berlin";
     "dealerRatings" := VStr "12" ]}.
Definition dealer_rec_2 : gmap string value :=
  {[ "dealerName" := VStr "A"; "location" := VStr "Hamburg";
     "dealerRatings" := VStr "40" ]}.
Definition dealer_rec_3 : gmap string value :=
  {[ "dealerName" := VStr EmptyString ]}.

(** A site with endless pagination: every page can be fetched, has no
    detail link, and links to a next page with a longer URL. *)
Definition trap_fetch (url : string) : option string := Some "<html></html>".

Definition trap_parse (html base_url : string) : list string * option string :=
  ([], Some (base_url +:+ "x")).

(** A small site: three result pages with two detail links each, linked in
    a cycle (the last page links back to the first), and detail pages. *)
Definition SITE : string := "https://example.org".

Definition site_fetch (url : string) : option string :=
  if String.eqb url (SITE +:+ "/lst?page=1") then Some "page1"
  else if String.eqb url (SITE +:+ "/lst?page=2") then Some "page2"
  else if String.eqb url (SITE +:+ "/lst?page=3") then Some "page3"
  else if String.eqb url (SITE +:+ "/offers/1") then Some "offer1"
  else if String.eqb url (SITE +:+ "/offers/2") then Some "offer2"
  else if String.eqb url (SITE +:+ "/offers/3") then Some "broken"
  else None.

Definition site_parse (html base_url : string) : list string * option string :=
  if String.eqb html "page1"
  then ([SITE +:+ "/offers/1"; SITE +:+ "/offers/2"], Some (SITE +:+ "/lst?page=2"))
  else if String.eqb html "page2"
  then ([SITE +:+ "/offers/2"; SITE +:+ "/offers/3"], Some (SITE +:+ "/lst?page=3"))
  else if String.eqb html "page3"
  then ([SITE +:+ "/offers/4"; SITE +:+ "/offers/5"], Some (SITE +:+ "/lst?page=1"))
  else ([], None).

(** [urlparse(url).path] on the URLs of the small site: the text after the
    host, up to the query. *)
Fixpoint before_query (s : string) : string :=
  match s with
  | EmptyString => EmptyString
  | String c r => if Ascii.eqb c "?" then EmptyString else String c (before_query r)
  end.

Definition site_path (url : string) : string :=
  if starts_with SITE url
  then before_query (String.substring (String.length SITE)
                       (String.length url - String.length SITE) url)
  else before_query url.

(** The markup of the third offer makes the parser raise. *)
Definition site_parse_listing (html url : string) : outcome (gmap string value) :=
  if String.eqb html "broken" then Raised "ParserError"
  else Returned {[ "url" := VStr url; "title" := VStr html ]}.

(** Endless pagination where every page has a detail link of its own. *)
Definition feed_parse (html base_url : string) : list string * option string :=
  ([base_url +:+ "/offers/1"], Some (base_url +:+ "x")).

(** A page that links to itself as its next page. *)
Definition selflink_fetch (url : string) : option string := Some "<html></html>".

Definition selflink_parse (html base_url : string) : list string * option string :=
  ([base_url +:+ "/offers/9"], Some base_url).

(** * Further vocabulary *)

(** The characters of [s] that are not white space, in order. *)
Fixpoint non_space_chars (s : string) : string :=
  match s with
  | EmptyString => EmptyString
  | String c r =>
      if py_isspace c then non_space_chars r else String c (non_space_chars r)
  end.

(** [o] when it is there, [fallback] otherwise. *)
Definition first_some {A} (o fallback : option A) : option A :=
  match o with
  | Some x => Some x
  | None => fallback
  end.

(** The [listingCount] of a summary entry, and the sum of the counts of a
    summary. *)
Definition entry_count (e : gmap string value) : Z :=
  match e !! "listingCount" with
  | Some (VInt c) => c
  | _ => 0
  end.

Definition total_count (summary : gmap string (gmap string value)) : Z :=
  map_fold (fun _ e acc => entry_count e + acc) 0 summary.

(** The seeds after [strip], without the blank ones. *)
Definition stripped_seeds (start_urls : list string) : list string :=
  filter (fun s => nonempty s = true) (strip <$> start_urls).

(** The cut at the end of [_prepare_listing_urls]. *)
Definition cut_to (max_records : Z) (listing_urls : list string) : list string :=
  if max_records <? len listing_urls
  then slice_to max_records listing_urls
  else listing_urls.

(** * The page parser ([utils/parser.py]) *)

(** The double quote, for the selectors that hold one. *)
Definition DQ : string := String (ascii_of_nat 34) EmptyString.

Definition quoted (s : string) : string := DQ +:+ s +:+ DQ.

(** The selector [[data-testid="name"]]. *)
Definition testid (name : string) : string :=
  "[data-testid=" +:+ quoted name +:+ "]".

(** A list of strings stored in a record. *)
Definition texts (l : list string) : value := VList (VStr <$> l).

Module ListingParser.

Section Parser.

(** BeautifulSoup, as the parser uses it: [_soup(html)], [soup.select],
    [soup.select_one], [el.get_text(' ', strip=True)] and [el.get(name)].
    A tag is truthy whatever it holds. *)
Variables Soup Element : Type.
Variable make_soup : string -> Soup.
Variable select : Soup -> string -> list Element.
Variable select_one : Soup -> string -> option Element.
Variable element_text : Element -> string.
Variable element_get : Element -> string -> option string.

(** [urllib.parse.urljoin]. *)
Variable urljoin : string -> string -> string.

Definition DETAIL_LINKS : string :=
  "a[href*=" +:+ quoted "/angebote/" +:+ "], a[href*=" +:+ quoted "/offers/"
  +:+ "], a[data-item-name=" +:+ quoted "detail-page-link" +:+ "]".

(** The body of the loop over the anchors of a search page. *)
Definition add_link (base_url : string) (listing_urls : list string)
    (a : Element) : list string :=
  match element_get a "href" with
  | Some href =>
      if nonempty href
      then append_new listing_urls (urljoin base_url href)
      else listing_urls
  | None => listing_urls
  end.

Definition parse_search_page (html base_url : string)
  : list string * option string :=
  let soup := make_soup html in
  let listing_urls := foldl (add_link base_url) [] (select soup DETAIL_LINKS) in
  let next_link :=
    first_some (select_one soup ("a[rel=" +:+ quoted "next" +:+ "]"))
      (first_some (select_one soup ("a[aria-label*=" +:+ quoted "Next" +:+ "]"))
         (select_one soup ("a[aria-label*=" +:+ quoted "Weiter" +:+ "]"))) in
  let next_url :=
    match next_link with
    | Some a =>
        match element_get a "href" with
        | Some href => if nonempty href then Some (urljoin base_url href) else None
        | None => None
        end
    | None => None
    end in
  (listing_urls, next_url).

(** [_select_text]: the cleaned text of the first selector that finds an
    element whose text is not blank. *)
Fixpoint select_text (soup : Soup) (selectors : list string) : option string :=
  match selectors with
  | [] => None
  | sel :: rest =>
      match select_one soup sel with
      | Some el =>
          match clean_str (element_text el) with
          | Some text => Some text
          | None => select_text soup rest
          end
      | None => select_text soup rest
      end
  end.

(** The body of the inner loop of [_select_all_texts]. *)
Definition add_text (results : list string) (el : Element) : list string :=
  match clean_str (element_text el) with
  | Some text => append_new results text
  | None => results
  end.

Definition select_all_texts (soup : Soup) (selectors : list string)
  : list string :=
  foldl (fun results sel => foldl add_text results (select soup sel))
    [] selectors.

(** [img.get('src') or img.get('data-src')]. *)
Definition image_src (img : Element) : option string :=
  match element_get img "src" with
  | Some src => if nonempty src then Some src else element_get img "data-src"
  | None => element_get img "data-src"
  end.

(** The body of the image loop. *)
Definition add_image (image_urls : list string) (img : Element) : list string :=
  match image_src img with
  | Some src =>
      match clean_str src with
      | Some src => append_new image_urls src
      | None => image_urls
      end
  | None => image_urls
  end.

Definition parse_listing_page (html url : string) : gmap string value :=
  let soup := make_soup html in
  let title := select_text soup
    [ "h1" +:+ testid "heading"; "h1";
      "h2[data-item-name=" +:+ quoted "car-title" +:+ "]" ] in
  let price := select_text soup
    [ testid "price-label"; "div.price-block span";
      "span[data-item-name=price]" ] in
  let location := select_text soup
    [ testid "seller-address"; "div.seller-address";
      "span[itemprop=address]" ] in
  let dealer_name := select_text soup
    [ testid "seller-name"; "div.dealer-info h2";
      ".cldt-vendor-contact-box h2" ] in
  let dealer_ratings := select_text soup
    [ testid "rating-count"; "span.dealer-rating-count" ] in
  let mark := select_text soup
    [ testid "makeLabel"; "span[itemprop=brand]" ] in
  let model := select_text soup
    [ testid "modelLabel"; "span[itemprop=model]" ] in
  let model_version := select_text soup
    [ testid "versionLabel"; "span.model-version" ] in
  let milage := select_text soup
    [ testid "mileage-label"; "span.mileage";
      "dl[data-item-name=vehicle-details] dd:nth-of-type(1)" ] in
  let gearbox := select_text soup
    [ testid "transmission-label"; "span.gearbox" ] in
  let first_registration := select_text soup
    [ testid "first-registration-label"; "span.first-registration" ] in
  let fuel_type := select_text soup
    [ testid "fuel-label"; "span.fuel" ] in
  let power := select_text soup
    [ testid "power-label"; "span.power" ] in
  let seller := select_text soup
    [ testid "seller-type-label"; "span.seller-type" ] in
  let contact_name := select_text soup
    [ testid "seller-contact-name"; ".cldt-vendor-contact-box span" ] in
  let contact_phone := select_text soup
    [ testid "seller-phone"; "a[href^='tel:']" ] in
  let body_type := select_text soup
    [ testid "body-type-label"; "span.body-type" ] in
  let drivetrain := select_text soup
    [ testid "drive-type-label"; "span.drivetrain" ] in
  let seats := select_text soup
    [ testid "num-seats-label"; "span.seats" ] in
  let engine_size := select_text soup
    [ testid "cubic-capacity-label"; "span.engine-size" ] in
  let gears := select_text soup
    [ testid "gears-label"; "span.gears" ] in
  let emission_class := select_text soup
    [ testid "emission-class-label"; "span.emission-class" ] in
  let colour := select_text soup
    [ testid "exterior-color-label"; "span.exterior-color" ] in
  let manufacturer_colour := select_text soup
    [ testid "manufacturer-color-label"; "span.manufacturer-color" ] in
  let production_date := select_text soup
    [ testid "production-date-label"; "span.production-date" ] in
  let comfort := select_all_texts soup
    [ testid "comfort-features" +:+ " li"; "ul.comfort-features li" ] in
  let media := select_all_texts soup
    [ testid "media-features" +:+ " li"; "ul.media-features li" ] in
  let safety := select_all_texts soup
    [ testid "safety-features" +:+ " li"; "ul.safety-features li" ] in
  let extras := select_all_texts soup
    [ testid "other-features" +:+ " li"; "ul.extra-features li" ] in
  let image_urls :=
    foldl add_image []
      (select soup "figure img, [data-testid='gallery'] img, .image-gallery img") in
  list_to_map
    [ ("title", of_opt title);
      ("url", of_opt (clean_str url));
      ("mark", of_opt mark);
      ("model", of_opt model);
      ("modelVersion", of_opt model_version);
      ("location", of_opt location);
      ("dealerName", of_opt dealer_name);
      ("dealerRatings", of_opt dealer_ratings);
      ("price", of_opt price);
      ("milage", of_opt milage);
      ("gearbox", of_opt gearbox);
      ("firstRegistration", of_opt first_registration);
      ("fuelType", of_opt fuel_type);
      ("power", of_opt power);
      ("seller", of_opt seller);
      ("contactName", of_opt contact_name);
      ("contactPhone", of_opt contact_phone);
      ("bodyType", of_opt body_type);
      ("drivetrain", of_opt drivetrain);
      ("seats", of_opt seats);
      ("engineSize", of_opt engine_size);
      ("gears", of_opt gears);
      ("emissionClass", of_opt emission_class);
      ("comfort", texts comfort);
      ("media", texts media);
      ("safety", texts safety);
      ("extras", texts extras);
      ("colour", of_opt colour);
      ("manufacturerColour", of_opt manufacturer_colour);
      ("productionDate", of_opt production_date);
      ("images", texts image_urls) ].

End Parser.

End ListingParser.

(** A small document model for examples: an element is its text and its
    attributes, and a page lists the elements each selector finds. *)
Definition toy_element : Type := string * list (string * string).

Definition toy_soup : Type := list (string * list toy_element).

Definition toy_select (page : toy_soup) (selector : string) : list toy_element :=
  default [] (snd <$> (snd <$> list_find (fun entry => entry.1 = selector) page)).

Definition toy_select_one (page : toy_soup) (selector : string)
  : option toy_element :=
  head (toy_select page selector).

Definition toy_text (el : toy_element) : string := el.1.

Definition toy_get (el : toy_element) (name : string) : option string :=
  snd <$> (snd <$> list_find (fun attr => attr.1 = name) el.2).

Definition toy_page : toy_soup :=
  [ ("h1", [("  BMW   X5 ", [])]);
    (testid "price-label", [("€ 31,980", [])]);
    (testid "seller-name", [(" ", [])]);
    ("div.dealer-info h2", [("Auto  Haus", [])]);
    (testid "comfort-features" +:+ " li",
       [("Air  conditioning", []); ("Sunroof", []); ("Air conditioning", [])]);
    ("figure img, [data-testid='gallery'] img, .image-gallery img",
       [("", [("src", "a.jpg")]); ("", [("data-src", "b.jpg")]);
        ("", [("src", " a.jpg ")])]);
    (ListingParser.DETAIL_LINKS,
       [("one", [("href", "/offers/1")]); ("two", [("href", "/offers/2")]);
        ("again", [("href", "/offers/1")]); ("none", [])]);
    ("a[rel=" +:+ quoted "next" +:+ "]", [("next", [("href", "/lst?page=2")])]) ].

Definition toy_parse_listing (html url : string) : gmap string value :=
  ListingParser.parse_listing_page _ _ (fun _ => toy_page) toy_select toy_select_one
    toy_text toy_get html url.

Definition toy_parse_search (html base_url : string)
  : list string * option string :=
  ListingParser.parse_search_page _ _ (fun _ => toy_page) toy_select toy_select_one
    toy_get (fun base href => base +:+ href) html base_url.

(** * The proxy manager ([utils/proxy_manager.py]) *)

(** [s.split(',')]; [cur] is the part being read. *)
Fixpoint split_comma_from (cur : string) (s : string) : list string :=
  match s with
  | EmptyString => [cur]
  | String c r =>
      if Ascii.eqb c ","
      then cur :: split_comma_from EmptyString r
      else split_comma_from (cur +:+ String c EmptyString) r
  end.

Definition split_comma (s : string) : list string :=
  split_comma_from EmptyString s.

Module ProxyManager.

(** [itertools.cycle] over a list: [rest] is what the current pass has
    left, [items] the saved elements the next pass starts from. *)
Record cycle : Type := Cycle { rest : list string; items : list string }.

Definition cycle_of (items : list string) : cycle :=
  {| rest := items; items := items |}.

(** [next(iterator, None)]. *)
Definition cycle_next (c : cycle) : option (string * cycle) :=
  match rest c with
  | p :: r => Some (p, {| rest := r; items := items c |})
  | [] =>
      match items c with
      | p :: r => Some (p, {| rest := r; items := items c |})
      | [] => None
      end
  end.

(** The manager: [_proxies] and [_iterator]. *)
Record t : Type := Manager { proxies : list string; iterator : option cycle }.

(** [p.strip() for p in raw.split(',') if p.strip()], for a variable that
    is set and not empty. *)
Definition env_entries (raw : option string) : list string :=
  match raw with
  | Some raw =>
      if nonempty raw
      then filter (fun p => nonempty p = true) (strip <$> split_comma raw)
      else []
  | None => []
  end.

(** [__init__]; [getenv] is [os.getenv]. *)
Definition init (proxies : option (list string)) (use_env : bool)
    (getenv : string -> option string) : t :=
  let env_proxies :=
    if use_env
    then (env_entries (getenv "HTTP_PROXIES")
          ++ env_entries (getenv "HTTPS_PROXIES"))%list
    else [] in
  let all_proxies := (default [] proxies ++ env_proxies)%list in
  let proxies := filter (fun p => nonempty p = true) all_proxies in
  {| proxies := proxies;
     iterator := match proxies with
                 | [] => None
                 | _ :: _ => Some (cycle_of proxies)
                 end |}.

Definition has_proxies (m : t) : bool :=
  match proxies m with
  | [] => false
  | _ :: _ => true
  end.

(** [get_next]: the dictionary returned and the manager after the call. *)
Definition get_next (m : t) : option (gmap string string) * t :=
  match iterator m with
  | None => (None, m)
  | Some it =>
      match cycle_next it with
      | None => (None, m)
      | Some (proxy, it) =>
          let m := {| proxies := proxies m; iterator := Some it |} in
          if nonempty proxy
          then (Some (<["http" := proxy]> (<["https" := proxy]> ∅)), m)
          else (None, m)
      end
  end.

(** The manager after [k] calls of [get_next]. *)
Fixpoint after_calls (k : nat) (m : t) : t :=
  match k with
  | O => m
  | S k => after_calls k (get_next m).2
  end.

End ProxyManager.

(** An environment for examples. *)
Definition example_env (key : string) : option string :=
  if String.eqb key "HTTP_PROXIES" then Some " http://a:1 ,, http://b:2"
  else if String.eqb key "HTTPS_PROXIES" then Some " , "
  else None.

(** * Settings and start URLs ([main.py]) *)

(** A value read by [json.load].  Numbers are integers here: the code
    below only tells [None], dictionaries and lists from the rest. *)
#[warnings="-register-all"]
Inductive json : Type :=
  | JNull
  | JBool (b : bool)
  | JNum (n : Z)
  | JStr (s : string)
  | JList (l : list json)
  | JDict (d : gmap string json).

(** [bool(v)]. *)
Definition json_truthy (v : json) : bool :=
  match v with
  | JNull => false
  | JBool b => b
  | JNum n => negb (n =? 0)
  | JStr s => nonempty s
  | JList l => match l with [] => false | _ :: _ => true end
  | JDict d => negb (Nat.eqb (size d) 0)
  end.

(** [d.get(key)]. *)
Definition json_get (d : gmap string json) (key : string) : json :=
  default JNull (d !! key).

(** The loop of [merge_settings], started from [base].  The recursion
    descends into the dictionaries of [override], so [override] comes as a
    value; it is a dictionary at every call. *)
Fixpoint merge_into (base : gmap string json) (override : json)
  : gmap string json :=
  match override with
  | JDict items =>
      map_fold
        (fun key value merged =>
           match value, merged !! key with
           | JDict _, Some (JDict sub) =>
               <[key := JDict (merge_into sub value)]> merged
           | JNull, _ => merged
           | _, _ => <[key := value]> merged
           end)
        base items
  | _ => base
  end.

Definition merge_settings (base override : gmap string json)
  : gmap string json :=
  merge_into base (JDict override).

Section StartUrls.

(** [str(v)] for a list or a dictionary. *)
Variable json_repr : json -> string.

(** [str(v)]. *)
Definition json_str (v : json) : string :=
  match v with
  | JNull => "None"
  | JBool true => "True"
  | JBool false => "False"
  | JNum n => NilZero.string_of_int (Z.to_int n)
  | JStr s => s
  | _ => json_repr v
  end.

(** [read_start_urls]; [test_urls] holds the lines of [data/test_urls.txt],
    [None] when the file does not exist. *)
Definition read_start_urls (input_cfg : gmap string json)
    (test_urls : option (list string)) : outcome (list string) :=
  let start_urls :=
    if json_truthy (json_get input_cfg "startUrls")
    then json_get input_cfg "startUrls"
    else json_get input_cfg "urls" in
  let urls :=
    match start_urls with
    | JList l =>
        filter (fun u => nonempty u = true) ((fun u => strip (json_str u)) <$> l)
    | _ => []
    end in
  let urls :=
    match urls with
    | [] =>
        match test_urls with
        | Some lines =>
            filter (fun line => nonempty line && negb (starts_with "#" line) = true)
              (strip <$> lines)
        | None => []
        end
    | _ :: _ => urls
    end in
  match urls with
  | [] => Raised "ValueError"
  | _ :: _ => Returned urls
  end.

End StartUrls.

(** Settings for examples. *)
Definition example_base : gmap string json :=
  <["maxRecords" := JNum 300]>
  (<["outputFormat" := JStr "json"]>
  (<["network" := JDict (<["timeoutSeconds" := JNum 15]>
                         (<["retries" := JNum 2]> ∅))]> ∅)).

Definition example_override : gmap string json :=
  <["maxRecords" := JNum 50]>
  (<["outputFormat" := JNull]>
  (<["network" := JDict (<["retries" := JNull]>
                         (<["timeoutSeconds" := JNum 5]> ∅))]>
  (<["startUrls" := JList [JStr (" " +:+ SITE +:+ "/lst?page=1 "); JStr " "]]> ∅))).

(** How deep the dictionaries and lists of a value nest. *)
Fixpoint json_depth (v : json) : nat :=
  match v with
  | JDict d => S (map_fold (fun _ v acc => Nat.max (json_depth v) acc) O d)
  | JList l => S (foldr (fun v acc => Nat.max (json_depth v) acc) O l)
  | _ => O
  end.

Section ProxySettings.

Variable json_repr : json -> string.

(** The proxies [main] reads from the settings and hands to the
    [ProxyManager]. *)
Definition proxy_list (settings : gmap string json) : list string :=
  let proxy_cfg :=
    if json_truthy (json_get settings "proxies")
    then json_get settings "proxies"
    else if json_truthy (json_get settings "proxyList")
    then json_get settings "proxyList"
    else JList [] in
  match proxy_cfg with
  | JStr s => filter (fun p => nonempty p = true) (strip <$> split_comma s)
  | JList l =>
      filter (fun p => nonempty p = true)
        ((fun p => strip (json_str json_repr p)) <$> l)
  | _ => []
  end.

End ProxySettings.

(** * Theorems *)


(** * Text cleanup *)

Lemma nonempty_true s : nonempty s = true ↔ s ≠ EmptyString.
Proof. destruct s; simpl; split; congruence. Qed.

Lemma nonempty_false s : nonempty s = false ↔ s = EmptyString.
Proof. destruct s; simpl; split; congruence. Qed.

Lemma rstrip_cons_fixed c r :
  rstrip (String c r) = String c r →
  rstrip r = r ∧ (py_isspace c = true → r ≠ EmptyString).
Proof.
  simpl. destruct (rstrip r) as [|c' r'] eqn:Hr.
  - destruct (py_isspace c); [discriminate|].
    intros [= <-]. split; [done|discriminate].
  - intros [= <-]. split; [done|discriminate].
Qed.

Lemma lstrip_head s c r : lstrip s = String c r → py_isspace c = false.
Proof.
  induction s as [|a s IH]; simpl; [discriminate|].
  destruct (py_isspace a) eqn:Ha; [exact IH|].
  by intros [= <- <-].
Qed.

Lemma rstrip_idem s : rstrip (rstrip s) = rstrip s.
Proof.
  induction s as [|c s IH]; [done|]. simpl.
  destruct (rstrip s) as [|c' r'] eqn:Hr.
  - destruct (py_isspace c) eqn:Hc; simpl; [done|]. by rewrite Hc.
  - change (rstrip (String c (String c' r')) = String c (String c' r')).
    cbn [rstrip]. cbn [rstrip] in IH. by rewrite IH.
Qed.

Lemma rstrip_keeps_head c r :
  py_isspace c = false → ∃ r', rstrip (String c r) = String c r'.
Proof.
  intros Hc. simpl. destruct (rstrip r); rewrite ?Hc; eauto.
Qed.

(** What [strip] returns is already stripped on both sides. *)
Lemma strip_shape s :
  strip s = EmptyString ∨
  ∃ c r, strip s = String c r ∧ py_isspace c = false ∧ rstrip r = r.
Proof.
  unfold strip. destruct (lstrip s) as [|c r] eqn:Hl; [by left|].
  right. pose proof (lstrip_head _ _ _ Hl) as Hc.
  destruct (rstrip_keeps_head c r Hc) as [r' Hr'].
  exists c, r'. split; [done|]. split; [done|].
  pose proof (rstrip_idem (String c r)) as Hi. rewrite Hr' in Hi.
  by apply rstrip_cons_fixed in Hi as [? _].
Qed.

Lemma sub_ws_runs_tidy t :
  rstrip t = t →
  tidy_from false (sub_ws_runs false t) = true ∧
  (t ≠ EmptyString → tidy_from true (sub_ws_runs true t) = true).
Proof.
  induction t as [|c r IH]; [done|].
  intros Hfix. apply rstrip_cons_fixed in Hfix as [Hr Hne].
  destruct (IH Hr) as [IH1 IH2]. simpl.
  destruct (py_isspace c) eqn:Hc; simpl; rewrite ?Hc; simpl.
  - split; [|intros _]; apply IH2, Hne; done.
  - done.
Qed.

Lemma tidy_rstrip b u : tidy_from b u = true → rstrip u = u.
Proof.
  revert b. induction u as [|c r IH]; intros b; [done|]. simpl.
  destruct (py_isspace c) eqn:Hc.
  - intros (_ & Ht)%andb_prop. rewrite (IH _ Ht).
    destruct r; [discriminate|done].
  - intros Ht. rewrite (IH _ Ht). by destruct r.
Qed.

Lemma tidy_lstrip u : tidy_from true u = true → lstrip u = u.
Proof.
  destruct u as [|c r]; [done|]. simpl.
  by destruct (py_isspace c).
Qed.

Lemma tidy_sub_ws_runs u :
  (tidy_from true u = true → ∀ b, sub_ws_runs b u = u) ∧
  (tidy_from false u = true → sub_ws_runs false u = u).
Proof.
  induction u as [|c r [IH1 IH2]]; [done|]. simpl.
  destruct (py_isspace c) eqn:Hc; simpl.
  - split; [discriminate|].
    intros [Hsp Ht]%andb_prop. apply Ascii.eqb_eq in Hsp as ->.
    by rewrite (IH1 Ht).
  - split; [intros Ht b|intros Ht]; by rewrite (IH2 Ht).
Qed.

Lemma tidy_nonempty u : tidy_from true u = true → u ≠ EmptyString.
Proof. by destruct u. Qed.

Lemma clean_str_tidy s t : clean_str s = Some t → tidy_from true t = true.
Proof.
  unfold clean_str, collapse_ws.
  destruct (strip_shape s) as [->|(c & r & -> & Hc & Hr)]; [done|].
  simpl. rewrite Hc. intros [= <-]. simpl. rewrite Hc.
  by apply sub_ws_runs_tidy.
Qed.

Lemma clean_str_fixed t : tidy_from true t = true → clean_str t = Some t.
Proof.
  intros Ht. unfold clean_str, collapse_ws, strip.
  rewrite (tidy_lstrip _ Ht), (tidy_rstrip _ _ Ht).
  rewrite (proj1 (tidy_sub_ws_runs t) Ht).
  by destruct t.
Qed.

Lemma clean_str_nonempty s t : clean_str s = Some t → t ≠ EmptyString.
Proof. intros H. by apply tidy_nonempty, clean_str_tidy with s. Qed.

Lemma tidy_get b s i c :
  tidy_from b s = true → String.get i s = Some c → py_isspace c = true →
  c = " "%char ∧ ∃ d, String.get (S i) s = Some d ∧ py_isspace d = false.
Proof.
  revert b i. induction s as [|a r IH]; intros b i Ht; [by destruct i|].
  simpl in Ht. destruct i as [|i]; simpl.
  - intros [= ->] Hc. rewrite Hc in Ht.
    apply andb_prop in Ht as [Ha Hr]. apply andb_prop in Ha as [_ Ha].
    apply Ascii.eqb_eq in Ha as ->. split; [done|].
    destruct r as [|d r']; [done|]. simpl in Hr.
    destruct (py_isspace d) eqn:Hd; [done|]. by exists d.
  - destruct (py_isspace a).
    + apply andb_prop in Ht as [_ Hr]. by apply IH with true.
    + by apply IH with false.
Qed.

Lemma tidy_text_normal s : tidy_from true s = true → text_normal s.
Proof.
  intros Ht. split; [by apply tidy_nonempty|]. split.
  - intros c. destruct s as [|a r]; [done|]. simpl. intros [= ->].
    simpl in Ht. by destruct (py_isspace c).
  - intros i c. by apply tidy_get with true.
Qed.

Lemma clean_str_normal s t : clean_str s = Some t → text_normal t.
Proof. intros H. by apply tidy_text_normal, clean_str_tidy with s. Qed.

Lemma clean_text_normal f v t : clean_text f v = Some t → text_normal t.
Proof. destruct v; simpl; [done|apply clean_str_normal..]. Qed.

Lemma clean_text_tidy f v t : clean_text f v = Some t → tidy_from true t = true.
Proof. destruct v; simpl; [done|apply clean_str_tidy..]. Qed.



(** * Characters *)



Lemma upper_char_digit c : py_isdigit (upper_char c) = py_isdigit c.
Proof. by destruct c as [[] [] [] [] [] [] [] []]. Qed.

(** * Substrings *)

Lemma app_cons_str a s t : String a s +:+ t = String a (s +:+ t).
Proof. reflexivity. Qed.




Lemma prefix_spec n s : starts_with n s = true ↔ ∃ post, s = n +:+ post.
Proof.
  revert s. induction n as [|a n IH]; intros s; simpl.
  - split; [by exists s|done].
  - destruct s as [|b s].
    + split; [done|]. intros [post Hp]. discriminate Hp.
    + destruct (Ascii.eqb_spec a b) as [->|Hne]; simpl.
      * rewrite IH. split; intros [post Hp]; exists post.
        -- by rewrite app_cons_str, <- Hp.
        -- rewrite app_cons_str in Hp. by injection Hp.
      * split; [done|]. intros [post Hp].
        rewrite app_cons_str in Hp. by injection Hp.
Qed.

Lemma contains_spec n s : contains n s = true ↔ occurs n s.
Proof.
  induction s as [|b s IH]; simpl.
  - rewrite orb_false_r, prefix_spec. split.
    + intros [post Hp]. by exists EmptyString, post.
    + intros ([|? ?] & post & Hp); [exists post; exact Hp|discriminate Hp].
  - rewrite orb_true_iff, prefix_spec, IH. split.
    + intros [[post Hp]|(pre & post & Hp)].
      * by exists EmptyString, post.
      * exists (String b pre), post. by rewrite Hp.
    + intros ([|a pre] & post & Hp).
      * left. exists post. exact Hp.
      * right. exists pre, post.
        change (String b s = String a (pre +:+ n +:+ post)) in Hp.
        by injection Hp.
Qed.

Lemma contains_false n s : contains n s = false ↔ ¬ occurs n s.
Proof. rewrite <- contains_spec. by destruct (contains n s). Qed.



Lemma last_nonspace_nonempty n : last_nonspace n = true → n ≠ EmptyString.
Proof. by destruct n. Qed.








(** * Digits *)








(** [int()] reads a decimal numeral: the last digit is the units. *)
Lemma int_of_digits_from_snoc acc s c :
  int_of_digits_from acc (s +:+ String c EmptyString)
  = 10 * int_of_digits_from acc s + digit_value c.
Proof.
  revert acc. induction s as [|a s IH]; intros acc; [done|].
  rewrite app_cons_str. simpl. by rewrite IH.
Qed.

Lemma int_of_digits_snoc s c :
  int_of_digits (s +:+ String c EmptyString) = 10 * int_of_digits s + digit_value c.
Proof. apply int_of_digits_from_snoc. Qed.

(** * [parse_price] *)





(** * [parse_power] *)















(** * [extract_number] *)













(** * [normalize_listing]: which step writes which key *)

Lemma get_text_of_opt (L : gmap string value) k o :
  L !! k = Some (of_opt o) → get_text L k = o.
Proof. unfold get_text. intros ->. by destruct o. Qed.

Lemma get_text_lookup (L L' : gmap string value) k :
  L !! k = L' !! k → get_text L k = get_text L' k.
Proof. unfold get_text. by intros ->. Qed.

Lemma get_lookup (L L' : gmap string value) k :
  L !! k = L' !! k → get L k = get L' k.
Proof. unfold get. by intros ->. Qed.

Lemma clean_fields_lookup f keys (L : gmap string value) k :
  NoDup keys →
  foldl (clean_field f) L keys !! k =
    if decide (k ∈ keys) then Some (of_opt (clean_text f (get L k))) else L !! k.
Proof.
  intros Hnd. revert L. induction Hnd as [|k0 keys Hk0 Hnd IH]; intros L.
  - cbn [foldl]. destruct (decide (k ∈ [])) as [Hin|]; [|done].
    by apply not_elem_of_nil in Hin.
  - cbn [foldl]. rewrite IH. unfold clean_field at 1 2.
    destruct (decide (k = k0)) as [->|Hne].
    + destruct (decide (k0 ∈ keys)) as [|_]; [done|].
      destruct (decide (k0 ∈ k0 :: keys)) as [_|Hnin].
      * by rewrite lookup_insert_eq.
      * exfalso. apply Hnin, list_elem_of_here.
    + rewrite lookup_insert_ne by done.
      destruct (decide (k ∈ keys)) as [Hin|Hnin].
      * destruct (decide (k ∈ k0 :: keys)) as [_|Hnin].
        -- do 2 f_equal. apply (f_equal (clean_text f)), get_lookup.
           by rewrite lookup_insert_ne.
        -- exfalso. by apply Hnin, list_elem_of_further.
      * destruct (decide (k ∈ k0 :: keys)) as [[->|?]%elem_of_cons|_]; done.
Qed.

Lemma set_if_some_ne dest v (L : gmap string value) k :
  k ≠ dest → set_if_some dest v L !! k = L !! k.
Proof. intros Hne. destruct v; simpl; [by rewrite lookup_insert_ne|done]. Qed.

Lemma set_if_some_eq dest v (L : gmap string value) :
  set_if_some dest v L !! dest =
    match v with Some x => Some x | None => L !! dest end.
Proof. destruct v; simpl; [by rewrite lookup_insert_eq|done]. Qed.

Lemma number_field_ne (L : gmap string value) src dest k :
  k ≠ dest → number_field L (src, dest) !! k = L !! k.
Proof. apply set_if_some_ne. Qed.

Lemma number_fields_ne pairs (L : gmap string value) k :
  k ∉ pairs.*2 → foldl number_field L pairs !! k = L !! k.
Proof.
  revert L. induction pairs as [|[src dest] pairs IH]; intros L Hk; [done|].
  simpl. rewrite IH.
  - apply number_field_ne. intros ->. apply Hk. simpl. apply list_elem_of_here.
  - intros ?. apply Hk. simpl. by apply list_elem_of_further.
Qed.

Lemma feature_field_ne f (L : gmap string value) fk k :
  k ≠ fk → feature_field f L fk !! k = L !! k.
Proof.
  intros Hne. unfold feature_field.
  destruct (get L fk); by rewrite lookup_insert_ne.
Qed.

Lemma feature_fields_ne f keys (L : gmap string value) k :
  k ∉ keys → foldl (feature_field f) L keys !! k = L !! k.
Proof.
  revert L. induction keys as [|fk keys IH]; intros L Hk; [done|].
  simpl. rewrite IH.
  - apply feature_field_ne. intros ->. apply Hk, list_elem_of_here.
  - intros ?. by apply Hk, list_elem_of_further.
Qed.

Lemma images_field_ne f (L : gmap string value) k :
  k ≠ "images" → images_field f L !! k = L !! k.
Proof.
  intros Hne. unfold images_field.
  repeat case_match; by rewrite lookup_insert_ne.
Qed.

(** The stages of [normalize_listing], named. *)
Lemma normalize_listing_unfold f (L : gmap string value) :
  let L1 := foldl (clean_field f) L TEXT_KEYS in
  let price := parse_price (get_text L1 "price") in
  let L2 := set_if_some "rawPrice" (VInt <$> fst price) L1 in
  let L3 := set_if_some "currency" (VStr <$> snd price) L2 in
  let L4 := set_if_some "mileageKm"
              (VInt <$> parse_mileage (get_text L3 "milage")) L3 in
  let power := parse_power (get_text L4 "power") in
  let L5 := set_if_some "powerKW" (VInt <$> fst power) L4 in
  let L6 := set_if_some "powerHP" (VInt <$> snd power) L5 in
  let L7 := foldl number_field L6 NUMBER_KEYS in
  let L8 := foldl (feature_field f) L7 FEATURE_KEYS in
  normalize_listing f L = images_field f L8.
Proof.
  cbv zeta. unfold normalize_listing.
  destruct (parse_price _) as [raw_price currency]. cbn [fst snd].
  destruct (parse_power _) as [kW hp]. reflexivity.
Qed.

(** Closed decidable facts (membership in a literal list, [NoDup] of a
    literal list) are settled by evaluation. *)
Ltac by_compute := apply (bool_decide_unpack _); vm_compute; exact I.

Lemma number_dests_late k : k ∈ NUMBER_KEYS.*2 → k ∈ LATE_KEYS.
Proof.
  simpl. intros Hk.
  repeat (apply elem_of_cons in Hk as [->|Hk]; [by_compute|]).
  by apply elem_of_nil in Hk.
Qed.

Lemma feature_keys_late k : k ∈ FEATURE_KEYS → k ∈ LATE_KEYS.
Proof.
  intros Hk. unfold LATE_KEYS. rewrite !elem_of_app. auto.
Qed.

(** A key that no late step writes keeps the value the cleaning loop gave
    it (or the raw value when the cleaning loop does not write it
    either). *)
Lemma normalize_listing_early f (L : gmap string value) k :
  k ∉ LATE_KEYS →
  normalize_listing f L !! k = foldl (clean_field f) L TEXT_KEYS !! k.
Proof.
  intros Hk. rewrite normalize_listing_unfold. cbv zeta.
  assert (Hne : ∀ k', k' ∈ LATE_KEYS → k ≠ k') by (intros k' ? ->; done).
  rewrite images_field_ne by (apply Hne; by_compute).
  rewrite feature_fields_ne by (intros ?; by apply Hk, feature_keys_late).
  rewrite number_fields_ne by (intros ?; by apply Hk, number_dests_late).
  rewrite !set_if_some_ne by (apply Hne; by_compute).
  done.
Qed.

Lemma text_keys_early k : k ∈ TEXT_KEYS → k ∉ LATE_KEYS.
Proof.
  intros Hin Hlate.
  assert (Hdisj : Forall (fun k => k ∉ LATE_KEYS) TEXT_KEYS) by by_compute.
  rewrite Forall_forall in Hdisj. by apply (Hdisj k Hin).
Qed.

Lemma text_keys_nodup : NoDup TEXT_KEYS.
Proof. by_compute. Qed.

Lemma normalize_listing_text f (L : gmap string value) k :
  k ∈ TEXT_KEYS →
  normalize_listing f L !! k = Some (of_opt (clean_text f (get L k))).
Proof.
  intros Hk. rewrite normalize_listing_early by by apply text_keys_early.
  rewrite clean_fields_lookup by apply text_keys_nodup.
  by rewrite decide_True.
Qed.


Ltac key_ne := first [ discriminate | intros ?; discriminate ].

Ltac frame :=
  repeat first
    [ rewrite images_field_ne by key_ne
    | rewrite feature_fields_ne by by_compute
    | rewrite number_fields_ne by by_compute
    | rewrite number_field_ne by key_ne
    | rewrite set_if_some_ne by key_ne ].

Lemma cleaned_lookup f (L : gmap string value) k :
  k ∈ TEXT_KEYS →
  foldl (clean_field f) L TEXT_KEYS !! k = Some (of_opt (clean_text f (get L k))).
Proof.
  intros Hk. rewrite clean_fields_lookup by apply text_keys_nodup.
  by rewrite decide_True.
Qed.

Lemma uncleaned_lookup f (L : gmap string value) k :
  k ∉ TEXT_KEYS → foldl (clean_field f) L TEXT_KEYS !! k = L !! k.
Proof.
  intros Hk. rewrite clean_fields_lookup by apply text_keys_nodup.
  by rewrite decide_False.
Qed.




Section NormalizedFields.
Variable f : list value → string.
Variable L : gmap string value.
Hypothesis Hraw : raw_record L.







End NormalizedFields.






(** * List fields *)

Lemma clean_elements_fmap f (l : list value) :
  clean_elements f l = VStr <$> omap (clean_text f) l.
Proof.
  unfold clean_elements. induction l as [|v l IH]; [done|].
  csimpl. destruct (clean_text f v); csimpl; by rewrite IH.
Qed.

Lemma omap_clean_strings f (parts : list string) :
  omap (clean_text f) (VStr <$> parts) = omap clean_str parts.
Proof.
  induction parts as [|p parts IH]; [done|].
  csimpl. by rewrite IH.
Qed.

Lemma feature_field_eq f (L : gmap string value) fk :
  feature_field f L fk !! fk =
    Some (VList
      match get L fk with
      | VList l => VStr <$> omap (clean_text f) l
      | VStr s => VStr <$> omap clean_str (re_split s)
      | VNone => []
      | VInt n => [of_opt (clean_text f (VStr (py_str f (VInt n))))]
      end).
Proof.
  unfold feature_field. destruct (get L fk) as [|s|n|l];
    rewrite lookup_insert_eq; try done.
  - by rewrite clean_elements_fmap, omap_clean_strings.
  - by rewrite clean_elements_fmap.
Qed.

Lemma feature_fields_lookup f keys (L : gmap string value) k :
  NoDup keys → k ∈ keys →
  foldl (feature_field f) L keys !! k = feature_field f L k !! k.
Proof.
  intros Hnd. revert L. induction Hnd as [|k0 keys Hk0 Hnd IH]; intros L Hk.
  - by apply elem_of_nil in Hk.
  - cbn [foldl]. apply elem_of_cons in Hk as [->|Hk].
    + by rewrite feature_fields_ne.
    + rewrite IH by done. rewrite !feature_field_eq.
      assert (k ≠ k0) by (by intros ->).
      by rewrite (get_lookup _ L k) by by apply feature_field_ne.
Qed.

Lemma feature_not_text k : k ∈ FEATURE_KEYS → k ∉ TEXT_KEYS.
Proof.
  intros Hk Hin.
  assert (Hdisj : Forall (fun k => k ∉ TEXT_KEYS) FEATURE_KEYS) by by_compute.
  rewrite Forall_forall in Hdisj. by apply (Hdisj k Hk).
Qed.

Lemma feature_key_cases k :
  k ∈ FEATURE_KEYS → k = "comfort" ∨ k = "media" ∨ k = "safety" ∨ k = "extras".
Proof.
  unfold FEATURE_KEYS. rewrite !elem_of_cons, elem_of_nil. tauto.
Qed.

(** What [normalize_listing] leaves in a feature field, by the raw value. *)
Lemma normalized_feature f (L : gmap string value) fk :
  fk ∈ FEATURE_KEYS →
  normalize_listing f L !! fk =
    Some (VList
      match get L fk with
      | VList l => VStr <$> omap (clean_text f) l
      | VStr s => VStr <$> omap clean_str (re_split s)
      | VNone => []
      | VInt n => [of_opt (clean_text f (VStr (py_str f (VInt n))))]
      end).
Proof.
  intros Hfk. rewrite normalize_listing_unfold. cbv zeta.
  assert (Hnd : NoDup FEATURE_KEYS) by by_compute.
  pose proof (feature_not_text fk Hfk) as Hnt.
  apply feature_key_cases in Hfk as Hc.
  rewrite images_field_ne by (destruct Hc as [->|[->|[->| ->]]]; key_ne).
  rewrite feature_fields_lookup, feature_field_eq by done.
  do 2 f_equal.
  assert (Hget : ∀ L', L' !! fk = L !! fk → get L' fk = get L fk)
    by (intros L'; apply get_lookup).
  rewrite Hget; [done|].
  destruct Hc as [->|[->|[->| ->]]]; frame; by apply uncleaned_lookup.
Qed.

(** The image loop keeps the first occurrence of every cleaned image. *)
Lemma filter_dedup_first (P : string → Prop) `{∀ x, Decision (P x)} l :
  filter P (dedup_first l) = dedup_first (filter P l).
Proof.
  induction l as [|x l IH]; [done|]. cbn [dedup_first].
  destruct (decide (P x)) as [HP|HP].
  - rewrite !filter_cons_True by done. cbn [dedup_first]. rewrite <- IH.
    f_equal. rewrite !list_filter_filter. apply list_filter_iff. tauto.
  - rewrite !filter_cons_False by done. rewrite <- IH.
    rewrite list_filter_filter. apply list_filter_iff.
    intros y. split; [tauto|]. intros Hy. split; [done|]. by intros ->.
Qed.

Lemma images_loop_spec f (images : list value) (seen : gset string)
    (normalized : list string) :
  (∀ x, x ∈ seen ↔ x ∈ normalized) →
  images_loop f images seen normalized =
    (normalized ++
     dedup_first (filter (fun x => x ∉ normalized) (omap (clean_text f) images)))%list.
Proof.
  revert seen normalized.
  induction images as [|img images IH]; intros seen normalized Hseen.
  - simpl. by rewrite app_nil_r.
  - cbn [images_loop omap list_omap].
    destruct (clean_text f img) as [x|]; [|by apply IH].
    destruct (bool_decide_reflect (x ∈ seen)) as [Hin|Hnin].
    + rewrite filter_cons_False by (intros Hx; by apply Hx, Hseen).
      by apply IH.
    + rewrite filter_cons_True by (by rewrite <- Hseen).
      cbn [dedup_first]. rewrite (IH ({[x]} ∪ seen) (normalized ++ [x])%list).
      * rewrite <- app_assoc. cbn [app]. do 2 f_equal.
        rewrite filter_dedup_first, list_filter_filter. f_equal.
        apply list_filter_iff. intros y.
        rewrite elem_of_app, list_elem_of_singleton. tauto.
      * intros y. rewrite elem_of_union, elem_of_singleton, elem_of_app,
          list_elem_of_singleton, Hseen. tauto.
Qed.

Lemma images_loop_dedup f (images : list value) :
  images_loop f images ∅ [] = dedup_first (omap (clean_text f) images).
Proof.
  rewrite images_loop_spec by (intros x; rewrite elem_of_nil; set_solver).
  cbn [app]. f_equal. induction (omap (clean_text f) images) as [|x l IH]; [done|].
  rewrite filter_cons_True by apply not_elem_of_nil. by rewrite IH.
Qed.

Lemma dedup_first_elem l x : x ∈ dedup_first l ↔ x ∈ l.
Proof.
  induction l as [|y l IH]; [done|]. cbn [dedup_first].
  rewrite !elem_of_cons, list_elem_of_filter, IH.
  destruct (decide (x = y)); tauto.
Qed.

Lemma dedup_first_NoDup l : NoDup (dedup_first l).
Proof.
  induction l as [|y l IH]; [constructor|]. cbn [dedup_first].
  apply NoDup_cons. split.
  - rewrite list_elem_of_filter. tauto.
  - by apply NoDup_filter.
Qed.

Lemma normalized_images f (L : gmap string value) :
  normalize_listing f L !! "images" =
    Some (VList
      match get L "images" with
      | VList l => VStr <$> dedup_first (omap (clean_text f) l)
      | VStr s => VStr <$> dedup_first (omap (clean_text f) [VStr s])
      | _ => []
      end).
Proof.
  rewrite normalize_listing_unfold. cbv zeta. unfold images_field.
  set (L8 := foldl (feature_field f) _ FEATURE_KEYS).
  assert (Hget : get L8 "images" = get L "images").
  { apply get_lookup. unfold L8. frame. apply uncleaned_lookup. by_compute. }
  rewrite Hget. destruct (get L "images") as [|s|n|l]; cbn [truthy].
  - rewrite lookup_insert_eq. by rewrite images_loop_dedup.
  - destruct (nonempty s) eqn:Hs; rewrite lookup_insert_eq.
    + by rewrite images_loop_dedup.
    + apply nonempty_false in Hs as ->. by rewrite images_loop_dedup.
  - destruct (negb (n =? 0)); rewrite lookup_insert_eq; [done|].
    by rewrite images_loop_dedup.
  - destruct l; rewrite lookup_insert_eq; by rewrite images_loop_dedup.
Qed.





(** * Dealer summary *)

Lemma records_of_snoc d seen rec :
  records_of d (seen ++ [rec]) =
    (records_of d seen ++
     if decide (dealer_name_of rec = Returned d) then [rec] else [])%list.
Proof.
  unfold records_of. rewrite filter_app. f_equal.
Qed.

Lemma len_app {A} (l k : list A) : len (l ++ k) = len l + len k.
Proof. unfold len. rewrite length_app. lia. Qed.

Lemma head_app_nonempty {A} (l k : list A) x :
  head l = Some x → head (l ++ k) = Some x.
Proof. by destruct l. Qed.

Lemma summary_state_init : summary_state [] (∅, ∅).
Proof. intros d. simpl. by rewrite !lookup_empty. Qed.

Lemma summary_step_spec seen st rec d0 :
  summary_state seen st → dealer_name_of rec = Returned d0 →
  ∃ st', summary_step st rec = Returned st' ∧ summary_state (seen ++ [rec]) st'.
Proof.
  intros Hst Hname. destruct st as [summary counter].
  unfold summary_step. rewrite Hname. cbn [mbind outcome_bind].
  destruct (Hst d0) as [Hc0 Hs0]. cbn [fst snd] in Hc0, Hs0.
  unfold setdefault. rewrite lookup_insert_eq. cbn [default id].
  destruct (summary !! d0) as [e|] eqn:He;
    (eexists; split; [reflexivity|]); intros d; rewrite records_of_snoc;
    (destruct (decide (dealer_name_of rec = Returned d)) as [Heq|Hne];
     [assert (d = d0) as -> by congruence|assert (d ≠ d0) by congruence]);
    cbn [fst snd].
  - rewrite len_app. change (len [rec]) with 1.
    rewrite !lookup_insert_eq. cbn [default id]. split; [lia|].
    destruct (head (records_of d0 seen)) as [r0|] eqn:Hh; [|done].
    rewrite (head_app_nonempty _ _ _ Hh). cbn [fmap option_fmap option_map].
    injection Hs0 as ->. unfold entry_of. rewrite insert_insert_eq.
    do 3 f_equal. lia.
  - rewrite app_nil_r. destruct (Hst d) as [Hc Hs]. cbn [fst snd] in Hc, Hs.
    by rewrite !lookup_insert_ne by done.
  - rewrite len_app. change (len [rec]) with 1.
    rewrite !lookup_insert_eq. cbn [default id]. split; [lia|].
    destruct (records_of d0 seen) as [|? ?]; [|done].
    cbn [app head fmap option_fmap option_map].
    unfold entry_of. do 3 f_equal. rewrite Hc0. reflexivity.
  - rewrite app_nil_r. destruct (Hst d) as [Hc Hs]. cbn [fst snd] in Hc, Hs.
    by rewrite !lookup_insert_ne by done.
Qed.

Lemma summary_loop_spec rest seen st :
  summary_state seen st →
  Forall (fun r => ∃ d, dealer_name_of r = Returned d) rest →
  ∃ st', summary_loop rest st = Returned st' ∧ summary_state (seen ++ rest) st'.
Proof.
  revert seen st. induction rest as [|rec rest IH]; intros seen st Hst Hok.
  - exists st. by rewrite app_nil_r.
  - apply Forall_cons in Hok as [[d0 Hd0] Hok].
    destruct (summary_step_spec seen st rec d0 Hst Hd0) as (st1 & Hstep & Hst1).
    destruct (IH _ _ Hst1 Hok) as (st' & Hloop & Hst').
    exists st'. cbn [summary_loop]. rewrite Hstep. cbn [mbind outcome_bind].
    split; [done|]. by rewrite <- app_assoc in Hst'.
Qed.

Lemma entry_of_lookups d r0 c :
  entry_of d r0 c !! "dealerName" = Some (VStr d) ∧
  entry_of d r0 c !! "location" = Some (get r0 "location") ∧
  entry_of d r0 c !! "dealerRatings" = Some (get r0 "dealerRatings") ∧
  entry_of d r0 c !! "listingCount" = Some (VInt c).
Proof.
  unfold entry_of, new_entry.
  repeat split;
    repeat first [ rewrite lookup_insert_eq | rewrite lookup_insert_ne by done ];
    done.
Qed.

(** The dealer name of a record: the sentinel when [dealerName] is missing,
    [None] or blank, the trimmed name otherwise. *)
Lemma dealer_name_of_cases (rec : gmap string value) :
  (rec !! "dealerName" = None ∨ rec !! "dealerName" = Some VNone →
   dealer_name_of rec = Returned UNKNOWN_DEALER) ∧
  (∀ s, rec !! "dealerName" = Some (VStr s) →
     dealer_name_of rec =
       Returned (if nonempty (strip s) then strip s else UNKNOWN_DEALER)).
Proof.
  unfold dealer_name_of, get. split.
  - by intros [-> | ->].
  - intros s ->. simpl. destruct s; [done|]. done.
Qed.

(** C1, as the code has it.  For every sequence of records whose dealer
    names can be read, the summary maps each dealer name (the sentinel
    "Unknown dealer" when [dealerName] is absent or blank after trimming) to
    an entry whose [listingCount] is the number of records with that dealer
    name and whose [location] and [dealerRatings] are those of the FIRST
    record with that dealer name: [setdefault] keeps the entry made for the
    first record, and later records only raise the count. *)
Theorem build_summary_first_write (listings : list (gmap string value)) :
  Forall dealer_named listings →
  (∃ summary, build_summary listings = Returned summary ∧
     ∀ d,
       match head (records_of d listings) with
       | None => summary !! d = None
       | Some first_rec =>
           ∃ entry, summary !! d = Some entry ∧
             entry !! "dealerName" = Some (VStr d) ∧
             entry !! "listingCount" = Some (VInt (len (records_of d listings))) ∧
             entry !! "location" = Some (get first_rec "location") ∧
             entry !! "dealerRatings" = Some (get first_rec "dealerRatings")
       end) ∧
  (∀ rec : gmap string value,
     (rec !! "dealerName" = None ∨ rec !! "dealerName" = Some VNone →
      dealer_name_of rec = Returned UNKNOWN_DEALER) ∧
     (∀ s, rec !! "dealerName" = Some (VStr s) →
        dealer_name_of rec =
          Returned (if nonempty (strip s) then strip s else UNKNOWN_DEALER))).
Proof.
  intros Hok. split; [|apply dealer_name_of_cases].
  destruct (summary_loop_spec listings [] (∅, ∅) summary_state_init Hok)
    as ([summary counter] & Hloop & Hst).
  exists summary. unfold build_summary. rewrite Hloop. split; [done|].
  intros d. destruct (Hst d) as [_ Hs]. cbn [fst app] in Hs.
  destruct (head (records_of d listings)) as [r0|]; [|done].
  eexists. split; [exact Hs|].
  destruct (entry_of_lookups d r0 (len (records_of d listings)))
    as (? & ? & ? & ?).
  done.
Qed.

Lemma build_summary_first_write_witness :
  Forall dealer_named [dealer_rec_1; dealer_rec_2; dealer_rec_3] ∧
  ∃ summary entry unknown,
    build_summary [dealer_rec_1; dealer_rec_2; dealer_rec_3] = Returned summary ∧
    summary !! "A" = Some entry ∧
    entry !! "listingCount" = Some (VInt 2) ∧
    entry !! "location" = Some (VStr "Berlin") ∧
    summary !! UNKNOWN_DEALER = Some unknown ∧
    unknown !! "listingCount" = Some (VInt 1).
Proof.
  assert (Hok : Forall dealer_named [dealer_rec_1; dealer_rec_2; dealer_rec_3]).
  { repeat constructor; eexists; reflexivity. }
  split; [exact Hok|].
  destruct (build_summary_first_write _ Hok) as [(summary & Hb & Hs) _].
  pose proof (Hs "A") as Ha. pose proof (Hs UNKNOWN_DEALER) as Hu.
  cbn in Ha, Hu.
  destruct Ha as (entry & He & _ & Hc & Hl & _).
  destruct Hu as (unknown & Hue & _ & Huc & _).
  exists summary, entry, unknown. repeat split; assumption.
Defined.

(** C1 as the claim words it (the fields of the LAST record) fails on two
    records of one dealer: the summary keeps the location and the ratings
    of the first. *)
Lemma build_summary_last_write_counterexample :
  ¬ (∀ (listings : list (gmap string value)) summary d entry last_rec,
       build_summary listings = Returned summary →
       summary !! d = Some entry →
       last (records_of d listings) = Some last_rec →
       entry !! "location" = Some (get last_rec "location") ∧
       entry !! "dealerRatings" = Some (get last_rec "dealerRatings")).
Proof.
  intros H.
  destruct (H [dealer_rec_1; dealer_rec_2]
              {[ "A" := entry_of "A" dealer_rec_1 2 ]} "A"
              (entry_of "A" dealer_rec_1 2) dealer_rec_2) as [Hl _].
  - by vm_compute.
  - by vm_compute.
  - by vm_compute.
  - vm_compute in Hl. discriminate Hl.
Qed.


(** * Search-page expansion *)

Section Expansion.

Variable fetch_url : string → option string.
Variable parse_search_page : string → string → list string * option string.
Variable max_records : Z.

Local Abbreviation run_loop := (collect_loop fetch_url parse_search_page max_records).
Local Abbreviation next_of := (next_page fetch_url parse_search_page).
Local Abbreviation merge := (merge_page fetch_url parse_search_page).
Local Abbreviation chain := (page_chain fetch_url parse_search_page).
Local Abbreviation stops := (chain_stops fetch_url parse_search_page max_records).
Local Abbreviation gathered := (collected fetch_url parse_search_page).

(** One evaluation of the loop condition and, when it holds and the page is
    new, one run of the loop body. *)
Lemma collect_loop_unfold fuel next listing visited log :
  run_loop (S fuel) next listing visited log =
    match next with
    | Some u =>
        if nonempty u && (len listing <? max_records)
           && negb (bool_decide (u ∈ visited))
        then
          match next_of u with
          | Some v =>
              run_loop fuel (Some v) (merge listing u)
                ({[u]} ∪ visited) (log ++ [u])%list
          | None => Some (merge listing u, (log ++ [u])%list)
          end
        else Some (listing, log)
    | None => Some (listing, log)
    end.
Proof.
  cbn [collect_loop]. destruct next as [u|]; [|done].
  destruct (nonempty u && (len listing <? max_records)); [|done].
  destruct (bool_decide (u ∈ visited)); [done|]. cbn [andb negb].
  unfold next_page, merge_page, page_listing_urls.
  destruct (fetch_url u) as [html|]; [|done].
  destruct (nonempty html); [|done].
  destruct (parse_search_page html u) as [page_urls next']. cbn [fst snd].
  destruct next' as [v|]; cbn [truthy_opt]; [|done].
  by destruct (nonempty v).
Qed.

Lemma page_chain_0 u : nonempty u = true → chain (Some u) 0 = Some u.
Proof. intros Hu. cbn. by rewrite Hu. Qed.

Lemma page_chain_S u n :
  nonempty u = true → chain (Some u) (S n) = chain (next_of u) n.
Proof. intros Hu. cbn. by rewrite Hu. Qed.

Lemma collected_0 next listing : gathered next listing 0 = listing.
Proof. done. Qed.

Lemma collected_S u listing n :
  nonempty u = true →
  gathered (Some u) listing (S n) = gathered (next_of u) (merge listing u) n.
Proof. intros Hu. cbn. by rewrite Hu. Qed.

Lemma collect_loop_returns d next listing visited log :
  (∃ i, (i ≤ d)%nat ∧ stops next listing visited i) →
  is_Some (run_loop (S d) next listing visited log).
Proof.
  revert next listing visited log.
  induction d as [|d IH]; intros next listing visited log (i & Hi & Hstop);
    rewrite collect_loop_unfold;
    (destruct next as [u|]; [|by eexists]);
    (destruct (nonempty u && (len listing <? max_records)
               && negb (bool_decide (u ∈ visited))) eqn:Hc; [|by eexists]);
    apply andb_prop in Hc as [Hc Hnv]; apply andb_prop in Hc as [Hu Hcap];
    apply negb_true_iff, bool_decide_eq_false in Hnv;
    apply Z.ltb_lt in Hcap;
    (destruct (next_of u) as [v|] eqn:Hn; [|by eexists]);
    unfold chain_stops in Hstop.
  - exfalso. assert (i = 0%nat) as -> by lia.
    rewrite page_chain_0, collected_0 in Hstop by done.
    destruct Hstop as [?|[(w & [= <-] & [?|(i' & ? & _)])|?]];
      [done|done|lia|lia].
  - apply IH. destruct i as [|i].
    + exfalso. rewrite (page_chain_0 _ Hu), collected_0 in Hstop.
      destruct Hstop as [?|[(w & [= <-] & [?|(i' & ? & _)])|?]];
        [done|done|lia|lia].
    + exists i. split; [lia|]. unfold chain_stops.
      rewrite (page_chain_S _ _ Hu), (collected_S _ _ _ Hu), Hn in Hstop.
      destruct Hstop as [?|[(w & Hw & [Hin|(i' & Hlt & Hi')])|?]];
        [by left| | |by right; right];
        right; left; exists w; (split; [done|]).
      * left. set_solver.
      * destruct i' as [|i'].
        -- rewrite (page_chain_0 _ Hu) in Hi'. injection Hi' as ->.
           left. set_solver.
        -- right. exists i'. split; [lia|].
           by rewrite (page_chain_S _ _ Hu), Hn in Hi'.
Qed.

Lemma expansion_bounded_stops seed j :
  expansion_bounded fetch_url parse_search_page max_records seed j →
  stops (Some seed) [] ∅ j.
Proof.
  unfold chain_stops. intros [(i & Hij & Hrep)|Hcap]; [|by right; right].
  destruct (chain (Some seed) j) as [u|] eqn:Hj; [|by left].
  right. left. exists u. split; [done|]. right. by exists i.
Qed.

(** What a run that returns has done: it fetched the pages [fetched], none
    of them twice and none already visited, following the chain from
    [next], and it returns the detail URLs of these pages merged, in
    order, into the accumulator. *)
Lemma collect_loop_fetched fuel next listing visited log urls log' :
  run_loop fuel next listing visited log = Some (urls, log') →
  ∃ fetched,
    log' = (log ++ fetched)%list ∧
    urls = foldl merge listing fetched ∧
    NoDup fetched ∧
    (∀ u, u ∈ fetched → u ∉ visited) ∧
    (∀ m u, fetched !! m = Some u → chain next m = Some u).
Proof.
  revert next listing visited log.
  induction fuel as [|fuel IH]; intros next listing visited log; [done|].
  rewrite collect_loop_unfold.
  assert (Hexit : Some (listing, log) = Some (urls, log') →
    ∃ fetched, log' = (log ++ fetched)%list ∧
      urls = foldl merge listing fetched ∧ NoDup fetched ∧
      (∀ u, u ∈ fetched → u ∉ visited) ∧
      (∀ m u, fetched !! m = Some u → chain next m = Some u)).
  { intros [= <- <-]. exists []. rewrite app_nil_r.
    repeat split; [constructor|by intros ? ?%elem_of_nil|done]. }
  destruct next as [u|]; [|done].
  destruct (nonempty u && (len listing <? max_records)
            && negb (bool_decide (u ∈ visited))) eqn:Hc; [|done].
  clear Hexit.
  apply andb_prop in Hc as [Hc Hnv]. apply andb_prop in Hc as [Hu _].
  apply negb_true_iff, bool_decide_eq_false in Hnv.
  destruct (next_of u) as [v|] eqn:Hn.
  - intros (fetched & -> & -> & Hnd & Hnew & Hchain)%IH.
    exists (u :: fetched). rewrite <- app_assoc. repeat split.
    + apply NoDup_cons. split; [|done]. intros Hin%Hnew. set_solver.
    + intros w [->|Hin%Hnew]%elem_of_cons; set_solver.
    + intros [|m] w; cbn.
      * intros [= <-]. by rewrite Hu.
      * intros Hm%Hchain. by rewrite Hu, Hn.
  - intros [= <- <-]. exists [u]. repeat split.
    + apply NoDup_singleton.
    + by intros w ->%list_elem_of_singleton.
    + intros [|m] w; cbn; [|done]. intros [= <-]. by rewrite Hu.
Qed.

Lemma append_new_NoDup l u : NoDup l → NoDup (append_new l u).
Proof.
  intros Hl. unfold append_new.
  destruct (bool_decide_reflect (u ∈ l)); [done|].
  apply NoDup_app. repeat split; [done| |apply NoDup_singleton].
  by intros w Hw ->%list_elem_of_singleton.
Qed.

Lemma foldl_append_new_NoDup l us : NoDup l → NoDup (foldl append_new l us).
Proof.
  revert l. induction us as [|u us IH]; intros l Hl; [done|].
  cbn. by apply IH, append_new_NoDup.
Qed.

Lemma foldl_merge_page_NoDup l pages : NoDup l → NoDup (foldl merge l pages).
Proof.
  revert l. induction pages as [|p pages IH]; intros l Hl; [done|].
  cbn. by apply IH, foldl_append_new_NoDup.
Qed.

(** C6, as the code has it.  Expansion returns for every seed whose chain of
    next-page links ends or comes back to a page it has already passed (this
    covers pages that link to each other, or to themselves, in a cycle), or
    whose pages fill the cap.  It
    returns within as many loop steps as the chain needs to repeat, it
    fetches the pages of the chain in order and none of them twice (the
    visited set stops the loop at the first repeated page URL), and it
    returns the detail URLs of the fetched pages, merged in order without
    duplicates. *)
Theorem expansion_returns_on_repeat (seed : string) (log : list string)
    (j : nat) :
  expansion_bounded fetch_url parse_search_page max_records seed j →
  ∃ urls fetched,
    collect_listing_urls_from_search fetch_url parse_search_page max_records
      (S j) seed log = Some (urls, (log ++ fetched)%list) ∧
    NoDup fetched ∧
    (∀ m u, fetched !! m = Some u → chain (Some seed) m = Some u) ∧
    urls = foldl merge [] fetched ∧
    NoDup urls.
Proof.
  intros Hbound. unfold collect_listing_urls_from_search.
  destruct (collect_loop_returns j (Some seed) [] ∅ log) as [[urls log'] Hret].
  { exists j. split; [done|]. by apply expansion_bounded_stops. }
  destruct (collect_loop_fetched _ _ _ _ _ _ _ Hret)
    as (fetched & -> & -> & Hnd & _ & Hchain).
  exists (foldl merge [] fetched), fetched.
  repeat split; [done..|].
  apply foldl_merge_page_NoDup. constructor.
Qed.

End Expansion.

Lemma expansion_returns_on_repeat_witness :
  (∃ urls fetched,
     collect_listing_urls_from_search site_fetch site_parse 10 4
       (SITE +:+ "/lst?page=1") [] = Some (urls, fetched) ∧
     length fetched = 3%nat ∧ length urls = 5%nat) ∧
  (∃ urls fetched,
     collect_listing_urls_from_search selflink_fetch selflink_parse 10 2
       "https://example.org/lst" [] = Some (urls, fetched) ∧
     fetched = ["https://example.org/lst"] ∧
     urls = ["https://example.org/lst/offers/9"]) ∧
  (∃ urls fetched,
     collect_listing_urls_from_search trap_fetch feed_parse 2 3 "p" []
       = Some (urls, fetched) ∧
     fetched = ["p"; "px"] ∧ urls = ["p/offers/1"; "px/offers/1"]).
Proof.
  split; [|split].
  - destruct (expansion_returns_on_repeat site_fetch site_parse 10
                (SITE +:+ "/lst?page=1") [] 3)
      as (urls & fetched & Hrun & _).
    { left. exists 0%nat. split; [lia|reflexivity]. }
    exists urls, fetched. split; [exact Hrun|].
    vm_compute in Hrun. injection Hrun as <- <-. split; reflexivity.
  - destruct (expansion_returns_on_repeat selflink_fetch selflink_parse 10
                "https://example.org/lst" [] 1)
      as (urls & fetched & Hrun & _).
    { left. exists 0%nat. split; [lia|reflexivity]. }
    exists urls, fetched. split; [exact Hrun|].
    vm_compute in Hrun. injection Hrun as <- <-. split; reflexivity.
  - destruct (expansion_returns_on_repeat trap_fetch feed_parse 2 "p" [] 2)
      as (urls & fetched & Hrun & _).
    { right. by vm_compute. }
    exists urls, fetched. split; [exact Hrun|].
    vm_compute in Hrun. injection Hrun as <- <-. split; reflexivity.
Defined.

Lemma str_length_app s t :
  String.length (s +:+ t) = (String.length s + String.length t)%nat.
Proof.
  induction s as [|c s IH]; [done|]. rewrite app_cons_str. cbn. by rewrite IH.
Qed.

Lemma trap_loop_never_returns fuel u visited log :
  nonempty u = true →
  (∀ v, v ∈ visited → (String.length v < String.length u)%nat) →
  collect_loop trap_fetch trap_parse 10 fuel (Some u) [] visited log = None.
Proof.
  revert u visited log. induction fuel as [|fuel IH]; intros u visited log Hu Hv;
    [done|].
  rewrite collect_loop_unfold. rewrite Hu.
  assert (Hnew : u ∉ visited) by (intros Hin%Hv; lia).
  rewrite (bool_decide_eq_false_2 _ Hnew). cbn [andb negb len length].
  change (Z.of_nat 0 <? 10) with true. cbn [andb].
  assert (Hnext : next_page trap_fetch trap_parse u = Some (u +:+ "x")).
  { unfold next_page, trap_fetch, trap_parse. cbn.
    destruct u; [done|]. done. }
  rewrite Hnext. apply IH.
  - destruct u; [done|]. done.
  - intros v [->%elem_of_singleton|Hin%Hv]%elem_of_union;
      rewrite str_length_app; cbn; lia.
Qed.

(** C6 as the claim words it (expansion returns for every seed) fails on a
    site with endless pagination: every page links to a new next page and
    none adds a detail URL, so no amount of loop steps ends the loop. *)
Lemma expansion_trap_counterexample :
  ¬ ∃ fuel result,
      collect_listing_urls_from_search trap_fetch trap_parse 10 fuel
        "https://example.org/lst" [] = Some result.
Proof.
  intros (fuel & result & Hrun). unfold collect_listing_urls_from_search in Hrun.
  rewrite trap_loop_never_returns in Hrun; [discriminate|done|].
  intros v Hin. by apply not_elem_of_empty in Hin.
Qed.


(** * Seed preparation *)

Section Preparation.

Variable fetch_url : string → option string.
Variable parse_search_page : string → string → list string * option string.
Variable url_path : string → string.
Variable max_records : Z.

Local Abbreviation prep_loop :=
  (prepare_loop fetch_url parse_search_page url_path max_records).
Local Abbreviation prepare :=
  (prepare_listing_urls fetch_url parse_search_page url_path max_records).

Lemma collect_from_search_NoDup fuel seed log urls log' :
  collect_listing_urls_from_search fetch_url parse_search_page max_records
    fuel seed log = Some (urls, log') →
  NoDup urls.
Proof.
  intros (fetched & _ & -> & _)%collect_loop_fetched.
  apply foldl_merge_page_NoDup. constructor.
Qed.

Lemma prepare_loop_NoDup fuel seeds acc log urls log' :
  NoDup acc → prep_loop fuel seeds acc log = Some (urls, log') → NoDup urls.
Proof.
  revert acc log. induction seeds as [|s seeds IH]; intros acc log Hacc.
  - by intros [= <- <-].
  - cbn [prepare_loop].
    destruct (negb (nonempty (strip s))); [by apply IH|].
    destruct (is_detail_url url_path (strip s)).
    { by apply IH, append_new_NoDup. }
    destruct (collect_listing_urls_from_search _ _ _ fuel (strip s) log)
      as [[found log1]|]; [|done].
    destruct (max_records <=? len (foldl append_new acc found)).
    + intros [= <- <-]. by apply foldl_append_new_NoDup.
    + by apply IH, foldl_append_new_NoDup.
Qed.

Lemma slice_to_capped {A} (l : list A) :
  0 < max_records → len (slice_to max_records l) ≤ max_records.
Proof.
  intros Hpos. unfold slice_to, len.
  destruct (Z.leb_spec 0 max_records); [|lia].
  rewrite length_take. lia.
Qed.

Lemma slice_to_NoDup {A} (n : Z) (l : list A) : NoDup l → NoDup (slice_to n l).
Proof.
  intros Hl. unfold slice_to.
  destruct (0 <=? n); eapply sublist_NoDup; eauto using sublist_take.
Qed.

Lemma prepare_loop_returns d seeds acc log :
  Forall (seed_settles fetch_url parse_search_page max_records d) seeds →
  is_Some (prep_loop (S d) seeds acc log).
Proof.
  intros Hseeds. revert acc log.
  induction Hseeds as [|s seeds (j & Hj & Hbound) _ IH]; intros acc log.
  - by eexists.
  - cbn [prepare_loop].
    destruct (negb (nonempty (strip s))); [apply IH|].
    destruct (is_detail_url url_path (strip s)); [apply IH|].
    unfold collect_listing_urls_from_search.
    destruct (collect_loop_returns fetch_url parse_search_page max_records
                d (Some (strip s)) [] ∅ log) as [[found log1] ->].
    { exists j. split; [done|]. by apply expansion_bounded_stops. }
    destruct (max_records <=? len (foldl append_new acc found)); [by eexists|].
    apply IH.
Qed.

(** C5. For every seed list and every positive [maxRecords = N], the list
    of URLs that seed preparation hands over for dispatch has at most [N]
    entries and no duplicates, whatever the pages yield (a longer
    accumulator is cut to its first [N] entries); and preparation does
    return such a list whenever the pagination of every seed settles. *)
Theorem prepared_urls_capped :
  0 < max_records →
  (∀ fuel seeds urls log,
     prepare fuel seeds = Some (urls, log) →
     len urls ≤ max_records ∧ NoDup urls) ∧
  (∀ d seeds,
     Forall (seed_settles fetch_url parse_search_page max_records d) seeds →
     ∃ urls log,
       prepare (S d) seeds = Some (urls, log) ∧
       len urls ≤ max_records).
Proof.
  intros Hpos.
  assert (Hcap : ∀ fuel seeds urls log,
    prepare fuel seeds = Some (urls, log) →
    len urls ≤ max_records ∧ NoDup urls).
  { intros fuel seeds urls log. unfold prepare_listing_urls.
    destruct (prep_loop fuel seeds [] []) as [[acc log1]|] eqn:Hloop; [|done].
    apply prepare_loop_NoDup in Hloop; [|constructor].
    destruct (Z.ltb_spec max_records (len acc)); intros [= <- <-].
    - split; [by apply slice_to_capped|by apply slice_to_NoDup].
    - done. }
  split; [exact Hcap|].
  intros d seeds Hseeds. unfold prepare_listing_urls.
  destruct (prepare_loop_returns d seeds [] [] Hseeds) as [[acc log1] Hloop].
  pose proof (Hcap (S d) seeds) as Hc. unfold prepare_listing_urls in Hc.
  rewrite Hloop in Hc |- *.
  eexists _, _. split; [reflexivity|]. by eapply Hc.
Qed.

End Preparation.

Lemma prepared_urls_capped_witness :
  ∃ log,
    prepare_listing_urls site_fetch site_parse site_path 1 4
      [SITE +:+ "/lst?page=1"] = Some ([SITE +:+ "/offers/1"], log) ∧
    len [SITE +:+ "/offers/1"] ≤ 1.
Proof.
  exists [SITE +:+ "/lst?page=1"].
  assert (Hrun : prepare_listing_urls site_fetch site_parse site_path 1 4
                   [SITE +:+ "/lst?page=1"]
                 = Some ([SITE +:+ "/offers/1"], [SITE +:+ "/lst?page=1"]))
    by reflexivity.
  split; [exact Hrun|].
  exact (proj1 (proj1 (prepared_urls_capped site_fetch site_parse site_path 1
                         ltac:(lia)) _ _ _ _ Hrun)).
Defined.

(** C2, evaluated.  With [maxRecords = 1], a detail seed fills the
    accumulator; the search seed after it is expanded all the same, its
    page is fetched and its URLs are accumulated beyond the cap (the
    [continue] of the detail branch skips the test that ends the loop), and
    only the final cut restores the cap.  When a search seed fills the
    accumulator, the next seed is not expanded. *)
Theorem detail_seed_skips_cap_check :
  prepare_loop site_fetch site_parse site_path 1 4
    [SITE +:+ "/offers/1"; SITE +:+ "/lst?page=1"] [] []
  = Some ([SITE +:+ "/offers/1"; SITE +:+ "/offers/2"], [SITE +:+ "/lst?page=1"]) ∧
  prepare_listing_urls site_fetch site_parse site_path 1 4
    [SITE +:+ "/offers/1"; SITE +:+ "/lst?page=1"]
  = Some ([SITE +:+ "/offers/1"], [SITE +:+ "/lst?page=1"]) ∧
  prepare_loop site_fetch site_parse site_path 2 4
    [SITE +:+ "/lst?page=1"; SITE +:+ "/lst?page=2"] [] []
  = Some ([SITE +:+ "/offers/1"; SITE +:+ "/offers/2"], [SITE +:+ "/lst?page=1"]).
Proof. repeat split; reflexivity. Qed.


(** * The scrape loop *)

Lemma normalize_listing_nonempty f (raw : gmap string value) :
  normalize_listing f raw ≠ ∅.
Proof.
  intros Hempty.
  pose proof (normalize_listing_text f raw "title" ltac:(by_compute)) as Ht.
  rewrite Hempty in Ht. by rewrite lookup_empty in Ht.
Qed.

Section Scrape.

Variable fetch_url : string → option string.
Variable parse_listing_page : string → string → outcome (gmap string value).
Variable str_of_list : list value → string.
Variable as_completed :
  list (string * outcome (option (gmap string value))) →
  list (string * outcome (option (gmap string value))).

(** [as_completed] yields every submitted future once, in some order. *)
Hypothesis as_completed_perm : ∀ futures, as_completed futures ≡ₚ futures.

Local Abbreviation task :=
  (scrape_single_listing fetch_url parse_listing_page str_of_list).
Local Abbreviation run_urls :=
  (scrape_urls fetch_url parse_listing_page str_of_list as_completed).

Lemma task_record_nonempty u r : task u = Returned (Some r) → r ≠ ∅.
Proof.
  unfold scrape_single_listing.
  destruct (fetch_url u) as [html|]; [|done].
  destruct (nonempty html); [|done].
  destruct (parse_listing_page html u) as [raw|e]; [|done].
  cbn. intros [= <-]. apply normalize_listing_nonempty.
Qed.

Lemma collect_result_tasks acc (urls : list string) :
  foldl collect_result acc ((fun u => (u, task u)) <$> urls)
  = (acc ++ omap (fun u => task_record (task u)) urls)%list.
Proof.
  revert acc. induction urls as [|u urls IH]; intros acc.
  - cbn. by rewrite app_nil_r.
  - cbn [fmap list_fmap foldl]. cbn [fmap list_fmap] in IH. rewrite IH.
    unfold collect_result. cbn [snd]. csimpl.
    destruct (task u) as [[r|]|e] eqn:Ht; cbn [task_record truthy_record].
    + apply task_record_nonempty in Ht.
      rewrite (bool_decide_eq_false_2 _ Ht). cbn [negb].
      by rewrite <- app_assoc.
    + done.
    + done.
Qed.

Lemma collect_result_completed (urls : list string) :
  foldl collect_result [] (as_completed ((fun u => (u, task u)) <$> urls))
  ≡ₚ omap (fun u => task_record (task u)) urls.
Proof.
  set (futures := (fun u => (u, task u)) <$> urls).
  assert (Hgen : ∀ (done_ : list (string * outcome (option (gmap string value)))),
    done_ ≡ₚ futures →
    foldl collect_result [] done_
    ≡ₚ omap (fun u => task_record (task u)) urls).
  { intros done_ Hperm.
    assert (Hfold : ∀ acc l,
      Forall (fun fut => ∀ r, snd fut = Returned (Some r) → r ≠ ∅) l →
      foldl collect_result acc l
      = (acc ++ omap (fun fut => task_record (snd fut)) l)%list).
    { intros acc l Hl. revert acc.
      induction Hl as [|fut l Hfut _ IH]; intros acc.
      - cbn. by rewrite app_nil_r.
      - cbn [foldl]. rewrite IH. unfold collect_result. csimpl.
        destruct (snd fut) as [[r|]|e] eqn:Hs; cbn [task_record truthy_record].
        + rewrite (bool_decide_eq_false_2 _ (Hfut r eq_refl)). cbn [negb].
          by rewrite <- app_assoc.
        + done.
        + done. }
    rewrite Hfold.
    - cbn [app]. rewrite Hperm. unfold futures.
      clear. induction urls as [|u urls IH]; [done|].
      csimpl. destruct (task_record (task u)); by rewrite IH.
    - rewrite Hperm. unfold futures. apply Forall_fmap, Forall_forall.
      intros u _ r Hr. by apply task_record_nonempty in Hr. }
  apply Hgen, as_completed_perm.
Qed.

Lemma scrape_urls_records (urls : list string) :
  ∃ results,
    run_urls urls = Returned results ∧
    results ≡ₚ omap (fun u => task_record (task u)) urls.
Proof.
  destruct urls as [|u urls]; [by exists []|].
  eexists. split; [reflexivity|]. apply collect_result_completed.
Qed.

Lemma omap_all_some {A B} (g : A → option B) (l : list A) :
  (∀ x, x ∈ l → is_Some (g x)) → length (omap g l) = length l.
Proof.
  induction l as [|x l IH]; intros Hl; [done|]. csimpl.
  destruct (Hl x) as [y ->]; [apply list_elem_of_here|]. cbn.
  rewrite IH; [done|]. intros z Hz. by apply Hl, list_elem_of_further.
Qed.

(** C9. Failure isolation.  The run over the dispatched URLs never raises:
    it returns, in completion order, exactly the records of the tasks that
    yielded one; a task whose fetch fails or that raises contributes
    nothing and does not disturb the others.  In particular, when exactly
    one of [K] tasks fails, the run returns the [K - 1] records of the
    others. *)
Theorem scrape_isolates_failures :
  (∀ urls, ∃ results,
     run_urls urls = Returned results ∧
     results ≡ₚ omap (fun u => task_record (task u)) urls) ∧
  (∀ before u after,
     task_record (task u) = None →
     (∀ v, v ∈ (before ++ after)%list → is_Some (task_record (task v))) →
     ∃ results,
       run_urls (before ++ u :: after)%list = Returned results ∧
       length results = (length (before ++ u :: after)%list - 1)%nat ∧
       results ≡ₚ omap (fun v => task_record (task v)) (before ++ after)%list) ∧
  (∀ u, fetch_url u = None → task_record (task u) = None) ∧
  (∀ u html exc,
     fetch_url u = Some html → parse_listing_page html u = Raised exc →
     task_record (task u) = None).
Proof.
  split; [apply scrape_urls_records|]. split; [|split].
  - intros before u after Hfail Hothers.
    destruct (scrape_urls_records (before ++ u :: after)%list)
      as (results & Hrun & Hperm).
    exists results. split; [done|].
    assert (Hsame : omap (fun v => task_record (task v)) (before ++ u :: after)%list
                    = omap (fun v => task_record (task v)) (before ++ after)%list).
    { rewrite !omap_app. csimpl. by rewrite Hfail. }
    rewrite Hsame in Hperm. split; [|done].
    rewrite Hperm, omap_all_some by done.
    rewrite !length_app. cbn. lia.
  - intros u Hf. unfold scrape_single_listing. by rewrite Hf.
  - intros u html exc Hf Hp. unfold scrape_single_listing. rewrite Hf, Hp.
    by destruct (nonempty html).
Qed.

End Scrape.

Lemma scrape_isolates_failures_witness :
  ∃ results,
    scrape_urls site_fetch site_parse_listing (fun _ => EmptyString) reverse
      [SITE +:+ "/offers/1"; SITE +:+ "/offers/3"; SITE +:+ "/offers/2"]
    = Returned results ∧
    length results = 2%nat.
Proof.
  destruct (proj1 (proj2 (scrape_isolates_failures site_fetch site_parse_listing
                            (fun _ => EmptyString) reverse
                            (fun l => reverse_Permutation l)))
              [SITE +:+ "/offers/1"] (SITE +:+ "/offers/3") [SITE +:+ "/offers/2"])
    as (results & Hrun & Hlen & _).
  - reflexivity.
  - intros v Hv. cbn in Hv.
    apply elem_of_cons in Hv as [->|Hv]; [by eexists|].
    apply list_elem_of_singleton in Hv as ->. by eexists.
  - exists results. split; [exact Hrun|exact Hlen].
Defined.


(** * Further properties of the text helpers *)





Lemma non_space_chars_lstrip s : non_space_chars (lstrip s) = non_space_chars s.
Proof.
  induction s as [|c r IH]; [done|]. simpl.
  destruct (py_isspace c) eqn:Hc; [done|]. simpl. by rewrite Hc.
Qed.

Lemma non_space_chars_rstrip s : non_space_chars (rstrip s) = non_space_chars s.
Proof.
  induction s as [|c r IH]; [done|]. simpl.
  destruct (rstrip r) as [|c' r'] eqn:Hr.
  - rewrite <- IH. destruct (py_isspace c) eqn:Hc; simpl; by rewrite ?Hc.
  - cbn [non_space_chars]. cbn [non_space_chars] in IH. by rewrite IH.
Qed.

Lemma non_space_chars_sub_ws_runs b s :
  non_space_chars (sub_ws_runs b s) = non_space_chars s.
Proof.
  revert b. induction s as [|c r IH]; intros b; [done|]. simpl.
  destruct (py_isspace c) eqn:Hc.
  - destruct b; [apply IH|]. simpl. apply IH.
  - simpl. by rewrite Hc, IH.
Qed.

Lemma non_space_chars_empty s :
  non_space_chars s = EmptyString ↔ all_chars py_isspace s = true.
Proof.
  induction s as [|c r IH]; [done|]. simpl.
  destruct (py_isspace c); simpl; [exact IH|]. split; discriminate.
Qed.

Lemma non_space_chars_clean_str s t :
  clean_str s = Some t → non_space_chars t = non_space_chars s.
Proof.
  unfold clean_str, collapse_ws, strip.
  destruct (nonempty _); [|done]. intros [= <-].
  by rewrite non_space_chars_sub_ws_runs, non_space_chars_rstrip,
    non_space_chars_lstrip.
Qed.

Lemma clean_str_none s : clean_str s = None ↔ all_chars py_isspace s = true.
Proof.
  rewrite <- non_space_chars_empty. split.
  - unfold clean_str, collapse_ws.
    destruct (strip_shape s) as [He|(c & r & He & Hc & _)].
    + intros _. unfold strip in He.
      by rewrite <- non_space_chars_lstrip, <- non_space_chars_rstrip, He.
    + rewrite He. simpl. by rewrite Hc.
  - intros Hs. destruct (clean_str s) as [t|] eqn:Ht; [|done].
    pose proof (non_space_chars_clean_str _ _ Ht) as Hn. rewrite Hs in Hn.
    apply clean_str_tidy in Ht. destruct t as [|c t]; [done|].
    simpl in Ht, Hn. by destruct (py_isspace c).
Qed.




(** * Further properties of [normalize_listing] *)

Lemma set_if_some_first_some dest v (L : gmap string value) :
  set_if_some dest v L !! dest = first_some v (L !! dest).
Proof. apply set_if_some_eq. Qed.

Section NormalizedFieldsGeneral.
Variable f : list value → string.
Variable L : gmap string value.

Lemma normalized_rawPrice_any :
  normalize_listing f L !! "rawPrice" =
    first_some (VInt <$> fst (parse_price (clean_text f (get L "price"))))
      (L !! "rawPrice").
Proof.
  rewrite normalize_listing_unfold. cbv zeta. frame.
  rewrite set_if_some_first_some, uncleaned_lookup by by_compute.
  by rewrite (get_text_of_opt _ _ _ (cleaned_lookup f L "price" ltac:(by_compute))).
Qed.

Lemma normalized_currency_any :
  normalize_listing f L !! "currency" =
    first_some (VStr <$> snd (parse_price (clean_text f (get L "price"))))
      (L !! "currency").
Proof.
  rewrite normalize_listing_unfold. cbv zeta. frame.
  rewrite set_if_some_first_some. frame.
  rewrite uncleaned_lookup by by_compute.
  by rewrite (get_text_of_opt _ _ _ (cleaned_lookup f L "price" ltac:(by_compute))).
Qed.

Lemma normalized_mileageKm_any :
  normalize_listing f L !! "mileageKm" =
    first_some (VInt <$> parse_mileage (clean_text f (get L "milage")))
      (L !! "mileageKm").
Proof.
  rewrite normalize_listing_unfold. cbv zeta. frame.
  rewrite set_if_some_first_some. frame.
  rewrite uncleaned_lookup by by_compute.
  f_equal. do 2 f_equal. apply get_text_of_opt. frame.
  by apply cleaned_lookup; by_compute.
Qed.

Lemma normalized_powerKW_any :
  normalize_listing f L !! "powerKW" =
    first_some (VInt <$> fst (parse_power (clean_text f (get L "power"))))
      (L !! "powerKW").
Proof.
  rewrite normalize_listing_unfold. cbv zeta. frame.
  rewrite set_if_some_first_some. frame.
  rewrite uncleaned_lookup by by_compute.
  f_equal. do 3 f_equal. apply get_text_of_opt. frame.
  by apply cleaned_lookup; by_compute.
Qed.

Lemma normalized_powerHP_any :
  normalize_listing f L !! "powerHP" =
    first_some (VInt <$> snd (parse_power (clean_text f (get L "power"))))
      (L !! "powerHP").
Proof.
  rewrite normalize_listing_unfold. cbv zeta. frame.
  rewrite set_if_some_first_some. frame.
  rewrite uncleaned_lookup by by_compute.
  f_equal. do 3 f_equal. apply get_text_of_opt. frame.
  by apply cleaned_lookup; by_compute.
Qed.

Lemma normalized_number_any src dest :
  (src, dest) ∈ NUMBER_KEYS →
  normalize_listing f L !! dest =
    first_some (VInt <$> extract_number (clean_text f (get L src))) (L !! dest).
Proof.
  intros Hin. rewrite normalize_listing_unfold. cbv zeta.
  unfold NUMBER_KEYS in Hin. cbn [foldl NUMBER_KEYS].
  repeat (apply elem_of_cons in Hin as [[= -> ->]|Hin]);
    [..|by apply elem_of_nil in Hin].
  all: frame; unfold number_field; rewrite set_if_some_first_some; frame.
  all: rewrite uncleaned_lookup by by_compute.
  all: f_equal; do 2 f_equal; apply get_text_of_opt; frame.
  all: by apply cleaned_lookup; by_compute.
Qed.

End NormalizedFieldsGeneral.

Lemma clean_text_of_opt f v :
  clean_text f (of_opt (clean_text f v)) = clean_text f v.
Proof.
  destruct (clean_text f v) as [t|] eqn:Hv; [|done].
  simpl. by apply clean_str_fixed, clean_text_tidy with f v.
Qed.

Lemma decimal_not_blank f n : is_Some (clean_text f (VStr (py_str f (VInt n)))).
Proof.
  simpl. destruct (clean_str _) as [t|] eqn:Ht; [by eexists|].
  apply clean_str_none in Ht. exfalso. revert Ht.
  destruct (Z.to_int n) as [u|u]; [|done].
  by destruct u.
Qed.

Lemma omap_clean_tidy f (ts : list string) :
  Forall (fun t => tidy_from true t = true) ts →
  omap (clean_text f) (VStr <$> ts) = ts.
Proof.
  induction 1 as [|t ts Ht _ IH]; [done|].
  csimpl. rewrite (clean_str_fixed t Ht). csimpl. by rewrite IH.
Qed.

Lemma omap_clean_text_tidy f (l : list value) :
  Forall (fun t => tidy_from true t = true) (omap (clean_text f) l).
Proof.
  apply Forall_forall. intros t (v & _ & Hv)%list_elem_of_omap.
  by apply clean_text_tidy in Hv.
Qed.

Lemma omap_clean_str_tidy (l : list string) :
  Forall (fun t => tidy_from true t = true) (omap clean_str l).
Proof.
  apply Forall_forall. intros t (v & _ & Hv)%list_elem_of_omap.
  by apply clean_str_tidy in Hv.
Qed.

Lemma filter_ne_absent (x : string) (l : list string) :
  x ∉ l → filter (fun y => y ≠ x) l = l.
Proof.
  induction l as [|y l IH]; [done|].
  intros [Hne Hx]%not_elem_of_cons.
  rewrite filter_cons_True by (by intros ->). f_equal. by apply IH.
Qed.

Lemma dedup_first_NoDup_id l : NoDup l → dedup_first l = l.
Proof.
  induction 1 as [|x l Hx _ IH]; [done|]. cbn [dedup_first]. rewrite IH.
  f_equal. by apply filter_ne_absent.
Qed.

Lemma dedup_first_Forall (P : string → Prop) l :
  Forall P l → Forall P (dedup_first l).
Proof.
  rewrite !Forall_forall. intros H x Hx. by apply H, dedup_first_elem.
Qed.

(** The list a feature field holds after normalization: cleaned texts. *)
Lemma normalized_feature_texts f (L : gmap string value) fk :
  fk ∈ FEATURE_KEYS →
  ∃ ts, normalize_listing f L !! fk = Some (VList (VStr <$> ts)) ∧
        Forall (fun t => tidy_from true t = true) ts.
Proof.
  intros Hfk. rewrite (normalized_feature _ _ _ Hfk).
  destruct (get L fk) as [|s|n|l].
  - exists []. by split.
  - eexists. split; [done|]. apply omap_clean_str_tidy.
  - destruct (decimal_not_blank f n) as [t Ht]. exists [t].
    rewrite Ht. split; [done|]. constructor; [|done].
    by apply clean_text_tidy in Ht.
  - eexists. split; [done|]. apply omap_clean_text_tidy.
Qed.

Lemma normalized_images_texts f (L : gmap string value) :
  ∃ ts, normalize_listing f L !! "images" = Some (VList (VStr <$> ts)) ∧
        Forall (fun t => tidy_from true t = true) ts ∧ NoDup ts.
Proof.
  rewrite normalized_images.
  destruct (get L "images") as [|s|n|l].
  - exists []. repeat split; constructor.
  - eexists. split; [done|].
    split; [apply dedup_first_Forall, omap_clean_text_tidy|apply dedup_first_NoDup].
  - exists []. repeat split; constructor.
  - eexists. split; [done|].
    split; [apply dedup_first_Forall, omap_clean_text_tidy|apply dedup_first_NoDup].
Qed.

Lemma raw_key_cases k :
  k ∈ RAW_KEYS ↔ k ∈ TEXT_KEYS ∨ k ∈ FEATURE_KEYS ∨ k = "images".
Proof.
  unfold RAW_KEYS. by rewrite !elem_of_app, list_elem_of_singleton.
Qed.

Lemma late_key_cases k :
  k ∈ LATE_KEYS ↔ k ∈ DERIVED_KEYS ∨ k ∈ FEATURE_KEYS ∨ k = "images".
Proof.
  unfold LATE_KEYS. by rewrite !elem_of_app, list_elem_of_singleton.
Qed.

(** X3. The key set of a normalized record: the keys of the input stay, the
    text fields, the feature lists and the images are always there, and a
    key that is neither one of these nor a derived field keeps its value. *)
Theorem normalize_listing_keys (str_of_list : list value → string)
    (listing : gmap string value) :
  let n := normalize_listing str_of_list listing in
  (∀ k, k ∈ RAW_KEYS → is_Some (n !! k)) ∧
  (∀ k, is_Some (listing !! k) → is_Some (n !! k)) ∧
  (∀ k, k ∉ RAW_KEYS → k ∉ DERIVED_KEYS → n !! k = listing !! k).
Proof.
  intros n.
  assert (Hraw : ∀ k, k ∈ RAW_KEYS → is_Some (n !! k)).
  { intros k [Hk|[Hk| ->]]%raw_key_cases; unfold n.
    - rewrite normalize_listing_text by done. by eexists.
    - rewrite normalized_feature by done. by eexists.
    - rewrite normalized_images. by eexists. }
  assert (Hother : ∀ k, k ∉ RAW_KEYS → k ∉ DERIVED_KEYS → n !! k = listing !! k).
  { intros k Hk Hd. rewrite raw_key_cases in Hk. unfold n.
    rewrite normalize_listing_early by (rewrite late_key_cases; tauto).
    apply uncleaned_lookup. tauto. }
  split; [done|]. split; [|done].
  intros k Hk. destruct (decide (k ∈ RAW_KEYS)) as [|Hnr]; [by apply Hraw|].
  destruct (decide (k ∈ DERIVED_KEYS)) as [Hd|Hnd]; [|by rewrite Hother].
  unfold n, DERIVED_KEYS in *.
  destruct Hk as [v Hv].
  repeat (apply elem_of_cons in Hd as [->|Hd]);
    [..|by apply elem_of_nil in Hd].
  - rewrite normalized_rawPrice_any, Hv. by destruct (_ <$> _).
  - rewrite normalized_currency_any, Hv. by destruct (_ <$> _).
  - rewrite normalized_mileageKm_any, Hv. by destruct (_ <$> _).
  - rewrite normalized_powerKW_any, Hv. by destruct (_ <$> _).
  - rewrite normalized_powerHP_any, Hv. by destruct (_ <$> _).
  - rewrite (normalized_number_any _ _ "seats") by by_compute.
    rewrite Hv. by destruct (_ <$> _).
  - rewrite (normalized_number_any _ _ "engineSize") by by_compute.
    rewrite Hv. by destruct (_ <$> _).
  - rewrite (normalized_number_any _ _ "gears") by by_compute.
    rewrite Hv. by destruct (_ <$> _).
Qed.

Lemma normalize_listing_keys_witness :
  normalize_listing (fun _ => EmptyString) (<["vin" := VStr " X1 "]> example_raw)
    !! "vin" = Some (VStr " X1 ") ∧
  is_Some (normalize_listing (fun _ => EmptyString) example_raw !! "title").
Proof.
  split.
  - destruct (normalize_listing_keys (fun _ => EmptyString)
                (<["vin" := VStr " X1 "]> example_raw)) as (_ & _ & Hk).
    rewrite Hk; [reflexivity| |]; by_compute.
  - destruct (normalize_listing_keys (fun _ => EmptyString) example_raw)
      as (Hr & _).
    apply Hr. by_compute.
Defined.

Lemma get_normalized_text f (L : gmap string value) k :
  k ∈ TEXT_KEYS →
  clean_text f (get (normalize_listing f L) k) = clean_text f (get L k).
Proof.
  intros Hk. unfold get at 1. rewrite normalize_listing_text by done.
  apply clean_text_of_opt.
Qed.

Lemma first_some_twice {A} (o x : option A) :
  first_some o (first_some o x) = first_some o x.
Proof. by destruct o. Qed.

(** X4. Normalizing a normalized record changes nothing. *)
Theorem normalize_listing_idempotent (str_of_list : list value → string)
    (listing : gmap string value) :
  normalize_listing str_of_list (normalize_listing str_of_list listing)
  = normalize_listing str_of_list listing.
Proof.
  apply map_eq. intros k.
  destruct (decide (k ∈ TEXT_KEYS)) as [Ht|Hnt].
  { rewrite (normalize_listing_text _ (normalize_listing _ _)) by done.
    rewrite get_normalized_text by done.
    by rewrite normalize_listing_text. }
  destruct (decide (k ∈ FEATURE_KEYS)) as [Hf|Hnf].
  { destruct (normalized_feature_texts str_of_list listing k Hf)
      as (ts & Hn & Hts).
    rewrite (normalized_feature _ (normalize_listing _ _)) by done.
    unfold get. rewrite Hn. cbn [default id].
    by rewrite omap_clean_tidy. }
  destruct (decide (k = "images")) as [->|Hni].
  { destruct (normalized_images_texts str_of_list listing)
      as (ts & Hn & Hts & Hnd).
    rewrite (normalized_images _ (normalize_listing _ _)).
    unfold get. rewrite Hn. cbn [default id].
    by rewrite omap_clean_tidy, dedup_first_NoDup_id. }
  destruct (decide (k ∈ DERIVED_KEYS)) as [Hd|Hnd].
  { unfold DERIVED_KEYS in Hd.
    repeat (apply elem_of_cons in Hd as [->|Hd]);
      [..|by apply elem_of_nil in Hd].
    - rewrite (normalized_rawPrice_any _ (normalize_listing _ _)).
      rewrite get_normalized_text by by_compute.
      rewrite normalized_rawPrice_any. apply first_some_twice.
    - rewrite (normalized_currency_any _ (normalize_listing _ _)).
      rewrite get_normalized_text by by_compute.
      rewrite normalized_currency_any. apply first_some_twice.
    - rewrite (normalized_mileageKm_any _ (normalize_listing _ _)).
      rewrite get_normalized_text by by_compute.
      rewrite normalized_mileageKm_any. apply first_some_twice.
    - rewrite (normalized_powerKW_any _ (normalize_listing _ _)).
      rewrite get_normalized_text by by_compute.
      rewrite normalized_powerKW_any. apply first_some_twice.
    - rewrite (normalized_powerHP_any _ (normalize_listing _ _)).
      rewrite get_normalized_text by by_compute.
      rewrite normalized_powerHP_any. apply first_some_twice.
    - rewrite (normalized_number_any _ (normalize_listing _ _) "seats")
        by by_compute.
      rewrite get_normalized_text by by_compute.
      rewrite (normalized_number_any _ listing "seats") by by_compute.
      apply first_some_twice.
    - rewrite (normalized_number_any _ (normalize_listing _ _) "engineSize")
        by by_compute.
      rewrite get_normalized_text by by_compute.
      rewrite (normalized_number_any _ listing "engineSize") by by_compute.
      apply first_some_twice.
    - rewrite (normalized_number_any _ (normalize_listing _ _) "gears")
        by by_compute.
      rewrite get_normalized_text by by_compute.
      rewrite (normalized_number_any _ listing "gears") by by_compute.
      apply first_some_twice. }
  rewrite normalize_listing_early by (rewrite late_key_cases; tauto).
  by apply uncleaned_lookup.
Qed.


(** * Further properties of the dealer summary *)

Lemma build_summary_lookup (listings : list (gmap string value)) :
  Forall dealer_named listings →
  ∃ summary, build_summary listings = Returned summary ∧
    ∀ d, summary !! d =
      (fun r0 => entry_of d r0 (len (records_of d listings)))
        <$> head (records_of d listings).
Proof.
  intros Hok.
  destruct (summary_loop_spec listings [] (∅, ∅) summary_state_init Hok)
    as ([summary counter] & Hloop & Hst).
  exists summary. unfold build_summary. rewrite Hloop. split; [done|].
  intros d. by destruct (Hst d) as [_ Hs].
Qed.

Lemma head_records_of d (listings : list (gmap string value)) :
  is_Some (head (records_of d listings)) ↔
  ∃ r, r ∈ listings ∧ dealer_name_of r = Returned d.
Proof.
  unfold records_of. split.
  - intros [r Hr]. exists r. apply head_Some_elem_of in Hr.
    by apply list_elem_of_filter in Hr as [? ?].
  - intros (r & Hin & Hd).
    assert (Hr : r ∈ filter (fun r => dealer_name_of r = Returned d) listings)
      by by apply list_elem_of_filter.
    destruct (filter _ listings); [by apply elem_of_nil in Hr|by eexists].
Qed.

Lemma dealer_name_of_normalized f (raw : gmap string value) :
  ∃ d, dealer_name_of (normalize_listing f raw) = Returned d ∧
       (d = UNKNOWN_DEALER ∨ text_normal d).
Proof.
  pose proof (normalize_listing_text f raw "dealerName" ltac:(by_compute)) as Hn.
  destruct (dealer_name_of_cases (normalize_listing f raw)) as [Hnone Hstr].
  destruct (clean_text f (get raw "dealerName")) as [t|] eqn:Ht.
  - pose proof (clean_text_tidy _ _ _ Ht) as Htidy.
    rewrite (Hstr t Hn). unfold strip.
    rewrite (tidy_lstrip _ Htidy), (tidy_rstrip _ _ Htidy).
    rewrite (proj2 (nonempty_true t)) by by apply tidy_nonempty.
    exists t. split; [done|]. right. by apply tidy_text_normal.
  - rewrite Hnone by (by right). exists UNKNOWN_DEALER. split; [done|by left].
Qed.

(** X5. The summary of normalized records is always built: reading the dealer
    name of a normalized record never raises.  Its keys are exactly the
    dealer names of the records, and each key is the cleaned dealer name of
    a record or the sentinel. *)
Theorem build_summary_of_normalized (str_of_list : list value → string)
    (raws : list (gmap string value)) :
  ∃ summary,
    build_summary (normalize_listing str_of_list <$> raws) = Returned summary ∧
    (∀ d, is_Some (summary !! d) ↔
          ∃ raw, raw ∈ raws ∧
            dealer_name_of (normalize_listing str_of_list raw) = Returned d) ∧
    (∀ d, is_Some (summary !! d) → d = UNKNOWN_DEALER ∨ text_normal d).
Proof.
  destruct (build_summary_lookup (normalize_listing str_of_list <$> raws))
    as (summary & Hrun & Hlook).
  { apply Forall_fmap, Forall_forall. intros raw _.
    destruct (dealer_name_of_normalized str_of_list raw) as (d & Hd & _).
    by exists d. }
  exists summary. split; [done|].
  assert (Hkeys : ∀ d, is_Some (summary !! d) ↔
            ∃ raw, raw ∈ raws ∧
              dealer_name_of (normalize_listing str_of_list raw) = Returned d).
  { intros d. rewrite Hlook, fmap_is_Some, head_records_of. split.
    - intros (r & (raw & -> & Hin)%list_elem_of_fmap & Hd). by exists raw.
    - intros (raw & Hin & Hd). exists (normalize_listing str_of_list raw).
      split; [|done]. apply list_elem_of_fmap. by exists raw. }
  split; [done|].
  intros d (raw & _ & Hd)%Hkeys.
  destruct (dealer_name_of_normalized str_of_list raw) as (d' & Hd' & Hform).
  congruence.
Qed.

Lemma dealer_name_of_raises (r : gmap string value) e :
  dealer_name_of r = Raised e → e = "AttributeError".
Proof.
  unfold dealer_name_of. destruct (get r "dealerName") as [|s|n|l]; simpl.
  - done.
  - by destruct (nonempty s).
  - destruct (negb (n =? 0)); [by intros [= <-]|done].
  - destruct l; [done|by intros [= <-]].
Qed.

Lemma summary_loop_raises (listings : list (gmap string value)) st :
  (∃ r e, r ∈ listings ∧ dealer_name_of r = Raised e) →
  summary_loop listings st = Raised "AttributeError".
Proof.
  revert st. induction listings as [|r0 rest IH]; intros st (r & e & Hin & Hr).
  - by apply elem_of_nil in Hin.
  - cbn [summary_loop]. destruct st as [summary counter].
    unfold summary_step.
    destruct (dealer_name_of r0) as [d0|e0] eqn:H0.
    + cbn [mbind outcome_bind].
      destruct (setdefault _ _ _) as [summary' entry]. cbn [mbind outcome_bind].
      apply IH. apply elem_of_cons in Hin as [->|Hin]; [congruence|].
      by exists r, e.
    + cbn [mbind outcome_bind]. by rewrite (dealer_name_of_raises _ _ H0).
Qed.

(** X6. A record whose [dealerName] is truthy but not a text (a number other
    than zero, a list that is not empty) has no [strip]: the whole summary
    is lost to an [AttributeError], wherever the record stands. *)
Theorem build_summary_raises (listings : list (gmap string value))
    (r : gmap string value) :
  r ∈ listings →
  ((∃ n, r !! "dealerName" = Some (VInt n) ∧ n ≠ 0) ∨
   (∃ x l, r !! "dealerName" = Some (VList (x :: l)))) →
  build_summary listings = Raised "AttributeError".
Proof.
  intros Hin Hbad. unfold build_summary.
  rewrite summary_loop_raises; [done|].
  exists r, "AttributeError". split; [done|].
  unfold dealer_name_of, get.
  destruct Hbad as [(n & -> & Hn)|(x & l & ->)]; simpl; [|done].
  by rewrite (proj2 (Z.eqb_neq n 0) Hn).
Qed.

Lemma build_summary_raises_witness :
  build_summary [dealer_rec_1; {[ "dealerName" := VInt 7 ]}; dealer_rec_2]
  = Raised "AttributeError".
Proof.
  apply (build_summary_raises _ {[ "dealerName" := VInt 7 ]}).
  - apply list_elem_of_further, list_elem_of_here.
  - left. exists 7. split; [reflexivity|lia].
Defined.

Lemma total_count_insert (summary : gmap string (gmap string value)) d e :
  total_count (<[d := e]> summary) =
    entry_count e + total_count summary
    - from_option entry_count 0 (summary !! d).
Proof.
  unfold total_count.
  assert (Hcomm : ∀ (m : gmap string (gmap string value))
            (j1 j2 : string) (z1 z2 : gmap string value) (y : Z),
            j1 ≠ j2 → m !! j1 = Some z1 → m !! j2 = Some z2 →
            entry_count z1 + (entry_count z2 + y)
            = entry_count z2 + (entry_count z1 + y)) by (intros; lia).
  destruct (summary !! d) as [e0|] eqn:Hd; cbn [from_option].
  - rewrite <- insert_delete_eq.
    rewrite (map_fold_insert_L _ _ _ _ _ (Hcomm _))
      by apply lookup_delete_eq.
    rewrite (map_fold_delete_L _ _ d e0 summary (Hcomm _) Hd). lia.
  - rewrite (map_fold_insert_L _ _ _ _ _ (Hcomm _)) by done. lia.
Qed.

Lemma entry_count_entry_of d r0 c : entry_count (entry_of d r0 c) = c.
Proof.
  unfold entry_count.
  by destruct (entry_of_lookups d r0 c) as (_ & _ & _ & ->).
Qed.

Lemma summary_step_total seen st rec :
  summary_state seen st → total_count (fst st) = len seen →
  dealer_named rec →
  ∃ st', summary_step st rec = Returned st' ∧
         summary_state (seen ++ [rec]) st' ∧
         total_count (fst st') = len (seen ++ [rec]).
Proof.
  intros Hst Htot [d0 Hname].
  destruct (summary_step_spec seen st rec d0 Hst Hname) as (st' & Hstep & Hst').
  exists st'. split; [done|]. split; [done|].
  destruct st as [summary counter]. cbn [fst] in Htot.
  destruct (Hst d0) as [Hc0 Hs0]. cbn [fst snd] in Hc0, Hs0.
  destruct (Hst' d0) as [_ Hs1].
  unfold summary_step in Hstep. rewrite Hname in Hstep.
  cbn [mbind outcome_bind] in Hstep. unfold setdefault in Hstep.
  rewrite len_app. change (len [rec]) with 1.
  destruct (summary !! d0) as [e|] eqn:He; injection Hstep as <-;
    cbn [fst] in Hs1 |- *; rewrite ?insert_insert_eq in Hs1 |- *;
    rewrite total_count_insert, He; cbn [from_option];
    rewrite lookup_insert_eq in Hs1;
    (destruct (head (records_of d0 (seen ++ [rec]))) as [r1|]; [|done]);
    cbn [fmap option_fmap option_map] in Hs1; apply (inj Some) in Hs1;
    rewrite Hs1, entry_count_entry_of, records_of_snoc, len_app;
    rewrite decide_True by done; change (len [rec]) with 1.
  - destruct (head (records_of d0 seen)) as [r0|]; [|done].
    cbn [fmap option_fmap option_map] in Hs0. apply (inj Some) in Hs0.
    rewrite Hs0, entry_count_entry_of. lia.
  - destruct (records_of d0 seen) as [|? ?] eqn:Hr; [|done].
    rewrite Htot. unfold len. cbn [length]. lia.
Qed.

Lemma summary_loop_total rest seen st :
  summary_state seen st → total_count (fst st) = len seen →
  Forall dealer_named rest →
  ∃ st', summary_loop rest st = Returned st' ∧
         total_count (fst st') = len (seen ++ rest).
Proof.
  revert seen st. induction rest as [|rec rest IH]; intros seen st Hst Htot Hok.
  - exists st. by rewrite app_nil_r.
  - apply Forall_cons in Hok as [Hrec Hok].
    destruct (summary_step_total seen st rec Hst Htot Hrec)
      as (st1 & Hstep & Hst1 & Htot1).
    destruct (IH _ _ Hst1 Htot1 Hok) as (st' & Hloop & Htot').
    exists st'. cbn [summary_loop]. rewrite Hstep. cbn [mbind outcome_bind].
    split; [done|]. by rewrite <- app_assoc in Htot'.
Qed.

(** X7. Every record is counted once: the listing counts of the summary add up
    to the number of records. *)
Theorem build_summary_counts_all (listings : list (gmap string value)) :
  Forall dealer_named listings →
  ∃ summary,
    build_summary listings = Returned summary ∧
    total_count summary = len listings.
Proof.
  intros Hok.
  destruct (summary_loop_total listings [] (∅, ∅) summary_state_init eq_refl Hok)
    as ([summary counter] & Hloop & Htot).
  exists summary. unfold build_summary. rewrite Hloop. by split.
Qed.

Lemma build_summary_counts_all_witness :
  ∃ summary,
    build_summary [dealer_rec_1; dealer_rec_2; dealer_rec_3] = Returned summary ∧
    total_count summary = 3.
Proof.
  apply (build_summary_counts_all [dealer_rec_1; dealer_rec_2; dealer_rec_3]).
  repeat constructor; eexists; reflexivity.
Defined.

Lemma build_summary_of_normalized_witness :
  ∃ summary,
    build_summary (normalize_listing (fun _ => EmptyString)
                     <$> [dealer_rec_1; dealer_rec_3]) = Returned summary ∧
    is_Some (summary !! "A") ∧ is_Some (summary !! UNKNOWN_DEALER).
Proof.
  destruct (build_summary_of_normalized (fun _ => EmptyString)
              [dealer_rec_1; dealer_rec_3]) as (summary & Hrun & Hkeys & _).
  exists summary. split; [exact Hrun|]. split.
  - apply Hkeys. exists dealer_rec_1. split; [apply list_elem_of_here|].
    by vm_compute.
  - apply Hkeys. exists dealer_rec_3.
    split; [apply list_elem_of_further, list_elem_of_here|]. by vm_compute.
Defined.


(** * Further properties of seed preparation *)

Lemma foldl_append_new_spec (l us : list string) :
  foldl append_new l us
  = (l ++ dedup_first (filter (fun u => u ∉ l) us))%list.
Proof.
  revert l. induction us as [|u us IH]; intros l.
  - cbn. by rewrite app_nil_r.
  - cbn [foldl]. rewrite IH. unfold append_new.
    destruct (bool_decide_reflect (u ∈ l)) as [Hin|Hnin].
    + by rewrite filter_cons_False by (by intros ?).
    + rewrite filter_cons_True by done. cbn [dedup_first].
      rewrite <- app_assoc. cbn [app]. do 2 f_equal.
      rewrite filter_dedup_first, list_filter_filter. f_equal.
      apply list_filter_iff. intros y.
      rewrite elem_of_app, list_elem_of_singleton. tauto.
Qed.

Lemma filter_not_in_nil (us : list string) :
  filter (fun u => u ∉ []) us = us.
Proof.
  induction us as [|u us IH]; [done|].
  rewrite filter_cons_True by apply not_elem_of_nil. by rewrite IH.
Qed.

Section DetailSeeds.

Variable fetch_url : string → option string.
Variable parse_search_page : string → string → list string * option string.
Variable url_path : string → string.
Variable max_records : Z.

Local Abbreviation prep_loop :=
  (prepare_loop fetch_url parse_search_page url_path max_records).
Local Abbreviation prepare :=
  (prepare_listing_urls fetch_url parse_search_page url_path max_records).

Lemma prepare_loop_details fuel seeds acc log :
  Forall (fun s => is_detail_url url_path s = true) (stripped_seeds seeds) →
  prep_loop fuel seeds acc log
  = Some (foldl append_new acc (stripped_seeds seeds), log).
Proof.
  unfold stripped_seeds. revert acc.
  induction seeds as [|s seeds IH]; intros acc Hd; [done|].
  cbn [prepare_loop fmap list_fmap]. cbn [fmap list_fmap] in IH, Hd.
  destruct (nonempty (strip s)) eqn:Hs; cbn [negb].
  - rewrite filter_cons_True in Hd |- * by done.
    apply Forall_cons in Hd as [-> Hd]. cbn [foldl]. by apply IH.
  - rewrite filter_cons_False in Hd |- * by (by rewrite Hs). by apply IH.
Qed.

(** X8. Seeds that are all detail URLs (or blank) are prepared without any
    fetch: the prepared list is the list of the stripped seeds that are not
    blank, each kept at its first occurrence, cut at the end as the source
    cuts it.  For a cap that is not negative the cut keeps the first
    [max_records] URLs; a negative cap drops that many URLs from the end
    instead. *)
Theorem prepare_detail_seeds (fuel : nat) (seeds : list string) :
  Forall (fun s => is_detail_url url_path s = true) (stripped_seeds seeds) →
  let kept := dedup_first (stripped_seeds seeds) in
  prepare fuel seeds = Some (cut_to max_records kept, []) ∧
  (0 ≤ max_records → cut_to max_records kept = take (Z.to_nat max_records) kept) ∧
  (max_records < 0 →
   cut_to max_records kept
   = take (length kept - Z.to_nat (- max_records)) kept).
Proof.
  intros Hd kept. split; [|split].
  - unfold prepare_listing_urls. rewrite (prepare_loop_details _ _ _ _ Hd).
    rewrite foldl_append_new_spec, filter_not_in_nil. done.
  - intros Hpos. unfold cut_to, slice_to.
    rewrite (proj2 (Z.leb_le 0 max_records)) by done.
    destruct (Z.ltb_spec max_records (len kept)); [done|].
    rewrite take_ge; [done|]. unfold len in *. lia.
  - intros Hneg. unfold cut_to, slice_to.
    rewrite (proj2 (Z.ltb_lt max_records (len kept))) by (unfold len; lia).
    by rewrite (proj2 (Z.leb_gt 0 max_records)) by done.
Qed.

End DetailSeeds.

Lemma prepare_detail_seeds_witness :
  prepare_listing_urls site_fetch site_parse site_path (-1) 0
    [" " +:+ SITE +:+ "/offers/1"; "  "; SITE +:+ "/offers/2";
     SITE +:+ "/offers/1"; SITE +:+ "/offers/3"]
  = Some ([SITE +:+ "/offers/1"; SITE +:+ "/offers/2"], []).
Proof.
  refine (proj1 (prepare_detail_seeds site_fetch site_parse site_path (-1) 0
                   [" " +:+ SITE +:+ "/offers/1"; "  "; SITE +:+ "/offers/2";
                    SITE +:+ "/offers/1"; SITE +:+ "/offers/3"] _)).
  repeat constructor.
Defined.


(** * Further properties of search-page expansion *)

Lemma len_append_new (l : list string) u : len (append_new l u) ≤ len l + 1.
Proof.
  unfold append_new. destruct (bool_decide (u ∈ l)); [lia|].
  rewrite len_app. unfold len. cbn. lia.
Qed.

Lemma len_foldl_append_new (l us : list string) :
  len (foldl append_new l us) ≤ len l + len us.
Proof.
  revert l. induction us as [|u us IH]; intros l.
  - unfold len. cbn. lia.
  - cbn [foldl]. etrans; [apply IH|].
    pose proof (len_append_new l u). unfold len in *. cbn [length]. lia.
Qed.

Lemma elem_of_foldl_append_new (l us : list string) x :
  x ∈ foldl append_new l us ↔ x ∈ l ∨ x ∈ us.
Proof.
  rewrite foldl_append_new_spec, elem_of_app, dedup_first_elem,
    list_elem_of_filter.
  destruct (decide (x ∈ l)); tauto.
Qed.

Section ExpansionMore.

Variable fetch_url : string → option string.
Variable parse_search_page : string → string → list string * option string.
Variable max_records : Z.

Local Abbreviation run_loop := (collect_loop fetch_url parse_search_page max_records).
Local Abbreviation next_of := (next_page fetch_url parse_search_page).
Local Abbreviation merge := (merge_page fetch_url parse_search_page).
Local Abbreviation links := (page_listing_urls fetch_url parse_search_page).

(** Every page but the last was fetched while the accumulator was under
    the cap. *)
Lemma collect_loop_under_cap fuel next listing visited log urls log' :
  run_loop fuel next listing visited log = Some (urls, log') →
  ∃ fetched,
    log' = (log ++ fetched)%list ∧
    urls = foldl merge listing fetched ∧
    (∀ pre last rest, fetched = (pre ++ last :: rest)%list →
       len (foldl merge listing pre) < max_records ∧ nonempty last = true).
Proof.
  revert next listing visited log.
  induction fuel as [|fuel IH]; intros next listing visited log; [done|].
  rewrite collect_loop_unfold.
  assert (Hexit : Some (listing, log) = Some (urls, log') →
    ∃ fetched, log' = (log ++ fetched)%list ∧
      urls = foldl merge listing fetched ∧
      (∀ pre last rest, fetched = (pre ++ last :: rest)%list →
         len (foldl merge listing pre) < max_records ∧ nonempty last = true)).
  { intros [= <- <-]. exists []. rewrite app_nil_r.
    repeat split; by destruct pre. }
  destruct next as [u|]; [|done].
  destruct (nonempty u && (len listing <? max_records)
            && negb (bool_decide (u ∈ visited))) eqn:Hc; [|done].
  clear Hexit.
  apply andb_prop in Hc as [Hc _]. apply andb_prop in Hc as [Hu Hcap].
  apply Z.ltb_lt in Hcap.
  destruct (next_of u) as [v|] eqn:Hn.
  - intros (fetched & -> & -> & Hpre)%IH.
    exists (u :: fetched). rewrite <- app_assoc. repeat split.
    + destruct pre as [|p pre]; [done|].
      injection H as <- Hf. by apply (Hpre _ _ _ Hf).
    + destruct pre as [|p pre]; [by injection H as <- _|].
      injection H as <- Hf. by apply (Hpre _ _ _ Hf).
  - intros [= <- <-]. exists [u]. repeat split.
    + destruct pre as [|p pre]; [done|]. by destruct pre.
    + destruct pre as [|p pre]; [by injection H as <- _|by destruct pre].
Qed.

(** X9. An expansion that starts from an empty seed, or under a cap that is
    not positive, fetches nothing and finds nothing.  Otherwise the cap is
    tested between pages only: the result may pass it, but by less than the
    number of detail links of the last page fetched. *)
Theorem expansion_soft_cap (fuel : nat) (seed : string) (log : list string) :
  (max_records ≤ 0 ∨ seed = EmptyString →
   collect_listing_urls_from_search fetch_url parse_search_page max_records
     (S fuel) seed log = Some ([], log)) ∧
  (∀ urls pre last,
     collect_listing_urls_from_search fetch_url parse_search_page max_records
       fuel seed log = Some (urls, (log ++ pre ++ [last])%list) →
     len (foldl merge [] pre) < max_records ∧
     len urls < max_records + len (links last)).
Proof.
  split.
  - intros Hedge. unfold collect_listing_urls_from_search.
    rewrite collect_loop_unfold.
    destruct Hedge as [Hmax| ->]; [|done].
    replace (len [] <? max_records) with false; [by rewrite andb_false_r|].
    symmetry. apply Z.ltb_ge. unfold len. cbn. lia.
  - intros urls pre last Hrun.
    apply collect_loop_under_cap in Hrun as (fetched & Hlog & -> & Hpre).
    apply app_inv_head in Hlog as <-.
    destruct (Hpre pre last [] eq_refl) as [Hunder _].
    split; [done|].
    rewrite foldl_app. cbn [foldl]. unfold merge_page at 1.
    pose proof (len_foldl_append_new (foldl merge [] pre) (links last)). lia.
Qed.

End ExpansionMore.

Lemma expansion_soft_cap_witness :
  collect_listing_urls_from_search site_fetch site_parse 0 1
    (SITE +:+ "/lst?page=1") [] = Some ([], []) ∧
  len [SITE +:+ "/offers/1"; SITE +:+ "/offers/2"] < 1 + 2.
Proof.
  split.
  - apply (proj1 (expansion_soft_cap site_fetch site_parse 0 0
                    (SITE +:+ "/lst?page=1") [])).
    left. lia.
  - apply (proj2 (expansion_soft_cap site_fetch site_parse 1 2
                    (SITE +:+ "/lst?page=1") [])
             [SITE +:+ "/offers/1"; SITE +:+ "/offers/2"] []
             (SITE +:+ "/lst?page=1")).
    reflexivity.
Defined.


(** * Where prepared URLs come from *)

Lemma cut_to_subseteq (max_records : Z) (l : list string) u :
  u ∈ cut_to max_records l → u ∈ l.
Proof.
  unfold cut_to, slice_to.
  destruct (max_records <? len l); [|done].
  destruct (0 <=? max_records); apply subseteq_take.
Qed.

Section Provenance.

Variable fetch_url : string → option string.
Variable parse_search_page : string → string → list string * option string.
Variable url_path : string → string.
Variable max_records : Z.

Local Abbreviation prep_loop :=
  (prepare_loop fetch_url parse_search_page url_path max_records).
Local Abbreviation prepare :=
  (prepare_listing_urls fetch_url parse_search_page url_path max_records).
Local Abbreviation merge := (merge_page fetch_url parse_search_page).
Local Abbreviation links := (page_listing_urls fetch_url parse_search_page).
Local Abbreviation chain := (page_chain fetch_url parse_search_page).

Lemma elem_of_foldl_merge (l fetched : list string) x :
  x ∈ foldl merge l fetched ↔ x ∈ l ∨ ∃ p, p ∈ fetched ∧ x ∈ links p.
Proof.
  revert l. induction fetched as [|p fetched IH]; intros l.
  - cbn. split; [by left|]. intros [?|(p & Hp & _)]; [done|].
    by apply elem_of_nil in Hp.
  - cbn [foldl]. rewrite IH. unfold merge_page.
    rewrite elem_of_foldl_append_new. split.
    + intros [[?|?]|(q & Hq & ?)]; [by left|right..].
      * exists p. split; [apply list_elem_of_here|done].
      * exists q. split; [by apply list_elem_of_further|done].
    + intros [?|(q & [->|Hq]%elem_of_cons & ?)]; [by left; left|by left; right|].
      right. by exists q.
Qed.

Lemma collect_from_search_origin fuel seed log urls log' :
  collect_listing_urls_from_search fetch_url parse_search_page max_records
    fuel seed log = Some (urls, log') →
  ∃ fetched,
    log' = (log ++ fetched)%list ∧
    (∀ u, u ∈ urls → ∃ p, p ∈ fetched ∧ u ∈ links p) ∧
    (∀ p, p ∈ fetched → ∃ m, chain (Some seed) m = Some p).
Proof.
  intros (fetched & -> & -> & _ & _ & Hchain)%collect_loop_fetched.
  exists fetched. split; [done|]. split.
  - intros u [Hu|Hu]%elem_of_foldl_merge; [by apply elem_of_nil in Hu|done].
  - intros p [m Hm]%list_elem_of_lookup. exists m. by apply Hchain.
Qed.

Lemma prepare_loop_origin (D C : string → Prop) fuel seeds acc log urls log' :
  (∀ s, s ∈ stripped_seeds seeds → is_detail_url url_path s = true → D s) →
  (∀ s p m, s ∈ stripped_seeds seeds → is_detail_url url_path s = false →
            chain (Some s) m = Some p → C p) →
  (∀ u, u ∈ acc → D u ∨ ∃ p, p ∈ log ∧ u ∈ links p) →
  (∀ p, p ∈ log → C p) →
  prep_loop fuel seeds acc log = Some (urls, log') →
  (∀ u, u ∈ urls → D u ∨ ∃ p, p ∈ log' ∧ u ∈ links p) ∧
  (∀ p, p ∈ log' → C p).
Proof.
  revert acc log. unfold stripped_seeds.
  induction seeds as [|s seeds IH]; intros acc log HD HC Hacc Hlog.
  - by intros [= <- <-].
  - cbn [prepare_loop]. cbn [fmap list_fmap] in HD, HC.
    destruct (nonempty (strip s)) eqn:Hs; cbn [negb].
    2:{ rewrite filter_cons_False in HD, HC by (by rewrite Hs). by apply IH. }
    rewrite filter_cons_True in HD, HC by done.
    assert (HD' : ∀ s0, s0 ∈ filter (fun s => nonempty s = true) (strip <$> seeds) →
                        is_detail_url url_path s0 = true → D s0)
      by (intros s0 Hs0; by apply HD, list_elem_of_further).
    assert (HC' : ∀ s0 p m,
              s0 ∈ filter (fun s => nonempty s = true) (strip <$> seeds) →
              is_detail_url url_path s0 = false →
              chain (Some s0) m = Some p → C p)
      by (intros s0 p m Hs0; by apply HC, list_elem_of_further).
    destruct (is_detail_url url_path (strip s)) eqn:Hdet.
    + apply IH; [done|done| |done].
      intros u Hu. unfold append_new in Hu.
      destruct (bool_decide (strip s ∈ acc)); [by apply Hacc|].
      apply elem_of_app in Hu as [Hu| ->%list_elem_of_singleton]; [by apply Hacc|].
      left. apply HD; [apply list_elem_of_here|done].
    + destruct (collect_listing_urls_from_search _ _ _ fuel (strip s) log)
        as [[found log1]|] eqn:Hrun; [|done].
      apply collect_from_search_origin in Hrun
        as (fetched & -> & Hfound & Hfetched).
      assert (Hacc1 : ∀ u, u ∈ foldl append_new acc found →
                D u ∨ ∃ p, p ∈ (log ++ fetched)%list ∧ u ∈ links p).
      { intros u [Hu|Hu]%elem_of_foldl_append_new.
        - destruct (Hacc u Hu) as [?|(p & Hp & ?)]; [by left|right].
          exists p. split; [|done]. apply elem_of_app. by left.
        - destruct (Hfound u Hu) as (p & Hp & ?). right.
          exists p. split; [|done]. apply elem_of_app. by right. }
      assert (Hlog1 : ∀ p, p ∈ (log ++ fetched)%list → C p).
      { intros p [Hp|Hp]%elem_of_app; [by apply Hlog|].
        destruct (Hfetched p Hp) as [m Hm].
        by apply (HC (strip s) p m); [apply list_elem_of_here|..]. }
      destruct (max_records <=? len (foldl append_new acc found)).
      * by intros [= <- <-].
      * by apply IH.
Qed.

(** X10. Seed preparation invents nothing.  Every prepared URL is a detail seed
    (stripped) or a detail link of a page that was fetched, and every page
    that was fetched lies on the chain of next-page links of a search seed:
    detail seeds are never fetched during preparation. *)
Theorem prepare_origin (fuel : nat) (seeds urls log : list string) :
  prepare fuel seeds = Some (urls, log) →
  (∀ u, u ∈ urls →
     (u ∈ stripped_seeds seeds ∧ is_detail_url url_path u = true) ∨
     ∃ p, p ∈ log ∧ u ∈ links p) ∧
  (∀ p, p ∈ log →
     ∃ s m, s ∈ stripped_seeds seeds ∧ is_detail_url url_path s = false ∧
            chain (Some s) m = Some p).
Proof.
  unfold prepare_listing_urls.
  destruct (prep_loop fuel seeds [] []) as [[acc log1]|] eqn:Hloop; [|done].
  intros [= <- <-].
  apply (prepare_loop_origin
           (fun u => u ∈ stripped_seeds seeds ∧ is_detail_url url_path u = true)
           (fun p => ∃ s m, s ∈ stripped_seeds seeds ∧
                            is_detail_url url_path s = false ∧
                            chain (Some s) m = Some p)) in Hloop
    as [Hurls Hlog].
  - split; [|done]. intros u Hu. apply Hurls. revert Hu. apply cut_to_subseteq.
  - done.
  - intros s p m ? ? ?. by exists s, m.
  - by intros u ?%elem_of_nil.
  - by intros p ?%elem_of_nil.
Qed.

End Provenance.

Lemma prepare_origin_witness :
  ∃ p, p ∈ [SITE +:+ "/lst?page=1"] ∧
       SITE +:+ "/offers/1" ∈ page_listing_urls site_fetch site_parse p.
Proof.
  destruct (proj1 (prepare_origin site_fetch site_parse site_path 1 4
                     [SITE +:+ "/lst?page=1"] [SITE +:+ "/offers/1"]
                     [SITE +:+ "/lst?page=1"] eq_refl)
              (SITE +:+ "/offers/1") (list_elem_of_here _ _))
    as [[Hin _]|Hpage].
  - vm_compute in Hin. apply list_elem_of_singleton in Hin. discriminate Hin.
  - exact Hpage.
Defined.


(** * The whole run *)

Lemma length_omap_le {A B} (g : A → option B) (l : list A) :
  (length (omap g l) ≤ length l)%nat.
Proof.
  induction l as [|x l IH]; [done|]. csimpl.
  destruct (g x); cbn; lia.
Qed.

Lemma prepare_capped fetch_url parse_search_page url_path max_records
    fuel seeds urls log :
  0 < max_records →
  prepare_listing_urls fetch_url parse_search_page url_path max_records
    fuel seeds = Some (urls, log) →
  len urls ≤ max_records.
Proof.
  intros Hpos. unfold prepare_listing_urls.
  destruct (prepare_loop _ _ _ _ fuel seeds [] []) as [[acc log1]|]; [|done].
  destruct (Z.ltb_spec max_records (len acc)); intros [= <- <-]; [|done].
  by apply slice_to_capped.
Qed.

Section Run.

Variable fetch_url : string → option string.
Variable parse_search_page : string → string → list string * option string.
Variable parse_listing_page : string → string → outcome (gmap string value).
Variable url_path : string → string.
Variable str_of_list : list value → string.
Variable max_records : Z.
Variable as_completed :
  list (string * outcome (option (gmap string value))) →
  list (string * outcome (option (gmap string value))).

Hypothesis as_completed_perm : ∀ futures, as_completed futures ≡ₚ futures.

Local Abbreviation run :=
  (scrape fetch_url parse_search_page parse_listing_page url_path str_of_list
     max_records as_completed).
Local Abbreviation prepare :=
  (prepare_listing_urls fetch_url parse_search_page url_path max_records).
Local Abbreviation task :=
  (scrape_single_listing fetch_url parse_listing_page str_of_list).

Lemma task_record_origin url r :
  task_record (task url) = Some r →
  ∃ html raw,
    fetch_url url = Some html ∧ nonempty html = true ∧
    parse_listing_page html url = Returned raw ∧
    r = normalize_listing str_of_list raw.
Proof.
  unfold scrape_single_listing.
  destruct (fetch_url url) as [html|]; [|done].
  destruct (nonempty html) eqn:Hh; [|done].
  destruct (parse_listing_page html url) as [raw|e] eqn:Hp; [|done].
  cbn. intros [= <-]. by exists html, raw.
Qed.

(** X11. A run that gets through seed preparation never raises and never
    returns more than [max_records] records (for a positive cap).  Every
    record it returns is the normalized record of a prepared URL whose page
    was fetched with a body and parsed, and so has all text fields [None]
    or cleaned. *)
Theorem scrape_bounded_and_normalized (fuel : nat) (seeds : list string) out :
  0 < max_records →
  run fuel seeds = Some out →
  ∃ results urls log,
    out = Returned results ∧
    prepare fuel seeds = Some (urls, log) ∧
    len results ≤ max_records ∧
    ∀ r, r ∈ results →
      (∃ url html raw,
         url ∈ urls ∧ fetch_url url = Some html ∧ nonempty html = true ∧
         parse_listing_page html url = Returned raw ∧
         r = normalize_listing str_of_list raw) ∧
      (∀ k, k ∈ TEXT_KEYS →
         r !! k = Some VNone ∨ ∃ s, r !! k = Some (VStr s) ∧ text_normal s).
Proof.
  intros Hpos. unfold scrape.
  destruct (prepare fuel seeds) as [[urls log]|] eqn:Hprep; [|done].
  intros [= <-].
  destruct (scrape_urls_records fetch_url parse_listing_page str_of_list
              as_completed as_completed_perm urls) as (results & Hrun & Hperm).
  exists results, urls, log. split; [done|]. split; [done|].
  pose proof (prepare_capped _ _ _ _ _ _ _ _ Hpos Hprep) as Hcap.
  split.
  { unfold len in *. rewrite Hperm.
    pose proof (length_omap_le (fun u => task_record (task u)) urls). lia. }
  intros r Hr. rewrite Hperm in Hr.
  apply list_elem_of_omap in Hr as (url & Hurl & Hrec).
  destruct (task_record_origin _ _ Hrec) as (html & raw & Hf & Hh & Hp & ->).
  split; [by exists url, html, raw|].
  intros k Hk. rewrite normalize_listing_text by done.
  destruct (clean_text str_of_list (get raw k)) as [s|] eqn:Hs; [right|by left].
  exists s. split; [done|]. by apply clean_text_normal in Hs.
Qed.

End Run.

Lemma scrape_bounded_and_normalized_witness :
  ∃ results,
    scrape site_fetch site_parse site_parse_listing site_path
      (fun _ => EmptyString) 2 reverse 4 [SITE +:+ "/lst?page=1"]
    = Some (Returned results) ∧
    len results ≤ 2.
Proof.
  destruct (scrape_bounded_and_normalized site_fetch site_parse
              site_parse_listing site_path (fun _ => EmptyString) 2 reverse
              (fun l => reverse_Permutation l) 4 [SITE +:+ "/lst?page=1"]
              (scrape_urls site_fetch site_parse_listing (fun _ => EmptyString)
                 reverse [SITE +:+ "/offers/1"; SITE +:+ "/offers/2"]))
    as (results & urls & log & Hout & _ & Hlen & _).
  - lia.
  - reflexivity.
  - exists results. split; [|exact Hlen]. by rewrite <- Hout.
Defined.


(** * The page parser *)

Lemma foldl_add_opt {A} (g : A → option string)
    (step : list string → A → list string) (acc : list string) (l : list A) :
  (∀ acc a, step acc a = match g a with
                         | Some u => append_new acc u
                         | None => acc
                         end) →
  foldl step acc l = foldl append_new acc (omap g l).
Proof.
  intros Hstep. revert acc. induction l as [|a l IH]; intros acc; [done|].
  cbn [foldl]. rewrite IH, Hstep. csimpl. by destruct (g a).
Qed.

Lemma foldl_append_new_nil (us : list string) :
  foldl append_new [] us = dedup_first us.
Proof. by rewrite foldl_append_new_spec, filter_not_in_nil. Qed.

Lemma tidy_Forall_normal (l : list string) :
  Forall (fun t => tidy_from true t = true) l → Forall text_normal l.
Proof.
  intros Hl. eapply Forall_impl; [done|]. intros t. apply tidy_text_normal.
Qed.

Lemma list_to_map_Forall (P : string → value → Prop)
    (fields : list (string * value)) k v :
  Forall (fun kv => P kv.1 kv.2) fields →
  (list_to_map fields : gmap string value) !! k = Some v → P k v.
Proof.
  intros Hall Hk. apply elem_of_list_to_map_2 in Hk.
  rewrite Forall_forall in Hall. apply (Hall (k, v) Hk).
Qed.

Lemma list_to_map_is_Some (fields : list (string * value)) k :
  is_Some ((list_to_map fields : gmap string value) !! k) ↔ k ∈ fields.*1.
Proof.
  rewrite <- not_eq_None_Some, <- not_elem_of_list_to_map.
  destruct (decide (k ∈ fields.*1)); tauto.
Qed.

Section ParserFacts.

Variables Soup Element : Type.
Variable make_soup : string → Soup.
Variable select : Soup → string → list Element.
Variable select_one : Soup → string → option Element.
Variable element_text : Element → string.
Variable element_get : Element → string → option string.
Variable urljoin : string → string → string.

Local Abbreviation first_text :=
  (ListingParser.select_text Soup Element select_one element_text).
Local Abbreviation all_texts :=
  (ListingParser.select_all_texts Soup Element select element_text).
Local Abbreviation parse_page :=
  (ListingParser.parse_listing_page Soup Element make_soup select select_one
     element_text element_get).
Local Abbreviation parse_search :=
  (ListingParser.parse_search_page Soup Element make_soup select select_one
     element_get urljoin).

(** X12. [_select_text] gives the text of the first selector that finds an
    element with a text that is not blank: a selector that finds nothing,
    or an element whose text is blank, passes the turn to the next one. *)
Theorem select_text_first_match (soup : Soup) (selectors : list string)
    (t : string) :
  first_text soup selectors = Some t ↔
  ∃ pre sel post el,
    selectors = (pre ++ sel :: post)%list ∧
    select_one soup sel = Some el ∧
    clean_str (element_text el) = Some t ∧
    ∀ sel' el', sel' ∈ pre → select_one soup sel' = Some el' →
      clean_str (element_text el') = None.
Proof.
  induction selectors as [|s rest IH].
  - split; [done|]. intros (pre & sel & post & el & Heq & _).
    by destruct pre.
  - cbn [ListingParser.select_text]. split.
    + destruct (select_one soup s) as [el|] eqn:Hs.
      * destruct (clean_str (element_text el)) as [t'|] eqn:Ht.
        -- intros [= ->]. exists [], s, rest, el.
           repeat split; try done. intros ? ? Hin. by apply elem_of_nil in Hin.
        -- intros (pre & sel & post & el0 & -> & H1 & H2 & H3)%IH.
           exists (s :: pre), sel, post, el0. repeat split; try done.
           intros sel' el' [->|Hin]%elem_of_cons Hsel'.
           ++ rewrite Hs in Hsel'. by injection Hsel' as <-.
           ++ by apply (H3 sel' el').
      * intros (pre & sel & post & el0 & -> & H1 & H2 & H3)%IH.
        exists (s :: pre), sel, post, el0. repeat split; try done.
        intros sel' el' [->|Hin]%elem_of_cons Hsel'.
        -- by rewrite Hs in Hsel'.
        -- by apply (H3 sel' el').
    + intros (pre & sel & post & el & Heq & H1 & H2 & H3).
      destruct pre as [|s' pre]; cbn in Heq; injection Heq as -> ->.
      * by rewrite H1, H2.
      * assert (Hrest : first_text soup (pre ++ sel :: post)%list = Some t).
        { apply IH. exists pre, sel, post, el. repeat split; try done.
          intros sel' el' Hin. apply H3. by right. }
        destruct (select_one soup s') as [el'|] eqn:Hs; [|done].
        by rewrite (H3 s' el') by (done || by left).
Qed.

Lemma select_text_tidy (soup : Soup) (selectors : list string) t :
  first_text soup selectors = Some t → tidy_from true t = true.
Proof.
  induction selectors as [|s rest IH]; [done|].
  cbn [ListingParser.select_text].
  destruct (select_one soup s) as [el|]; [|done].
  destruct (clean_str (element_text el)) as [t'|] eqn:Ht; [|done].
  intros [= ->]. by apply clean_str_tidy in Ht.
Qed.

(** The nested loop of [_select_all_texts] as one pass over all the
    elements found. *)
Lemma select_all_texts_from (soup : Soup) (selectors : list string)
    (acc : list string) :
  foldl (fun results sel =>
           foldl (ListingParser.add_text Element element_text) results
             (select soup sel)) acc selectors
  = foldl append_new acc
      (omap (fun el => clean_str (element_text el))
         (mjoin (select soup <$> selectors))).
Proof.
  revert acc. induction selectors as [|sel rest IH]; intros acc; [done|].
  cbn [foldl]. rewrite IH. csimpl. rewrite omap_app, foldl_app. f_equal.
  by apply foldl_add_opt.
Qed.

Lemma select_all_texts_dedup (soup : Soup) (selectors : list string) :
  all_texts soup selectors
  = dedup_first (omap (fun el => clean_str (element_text el))
                   (mjoin (select soup <$> selectors))).
Proof.
  unfold ListingParser.select_all_texts.
  by rewrite select_all_texts_from, foldl_append_new_nil.
Qed.

Lemma select_all_texts_tidy (soup : Soup) (selectors : list string) :
  Forall (fun t => tidy_from true t = true) (all_texts soup selectors).
Proof.
  rewrite select_all_texts_dedup. apply dedup_first_Forall.
  apply Forall_forall. intros t (el & _ & Ht)%list_elem_of_omap.
  by apply clean_str_tidy in Ht.
Qed.

(** X13. [_select_all_texts] gathers the cleaned texts of all the elements the
    selectors find, selector by selector, keeping the first occurrence of
    each text: the result has no duplicate and no blank entry. *)
Theorem select_all_texts_distinct (soup : Soup) (selectors : list string) :
  NoDup (all_texts soup selectors) ∧
  Forall text_normal (all_texts soup selectors) ∧
  (∀ t, t ∈ all_texts soup selectors ↔
     ∃ sel el, sel ∈ selectors ∧ el ∈ select soup sel ∧
               clean_str (element_text el) = Some t) ∧
  all_texts soup selectors
  = dedup_first (omap (fun el => clean_str (element_text el))
                   (mjoin (select soup <$> selectors))).
Proof.
  split; [rewrite select_all_texts_dedup; apply dedup_first_NoDup|].
  split; [apply tidy_Forall_normal, select_all_texts_tidy|].
  split; [|apply select_all_texts_dedup].
  intros t. rewrite select_all_texts_dedup, dedup_first_elem, list_elem_of_omap.
  split.
  - intros (el & Hel & Ht). apply list_elem_of_join in Hel as (els & Hel & Hels).
    apply list_elem_of_fmap in Hels as (sel & -> & Hsel).
    by exists sel, el.
  - intros (sel & el & Hsel & Hel & Ht). exists el. split; [|done].
    apply list_elem_of_join. exists (select soup sel). split; [done|].
    apply list_elem_of_fmap. by exists sel.
Qed.

Lemma images_dedup (imgs : list Element) :
  foldl (ListingParser.add_image Element element_get) [] imgs
  = dedup_first
      (omap (fun img =>
               match ListingParser.image_src Element element_get img with
               | Some src => clean_str src
               | None => None
               end) imgs).
Proof.
  rewrite <- foldl_append_new_nil. apply foldl_add_opt.
  intros acc img. unfold ListingParser.add_image.
  by destruct (ListingParser.image_src Element element_get img).
Qed.

Lemma images_tidy (imgs : list Element) :
  Forall (fun t => tidy_from true t = true)
    (foldl (ListingParser.add_image Element element_get) [] imgs).
Proof.
  rewrite images_dedup. apply dedup_first_Forall.
  apply Forall_forall. intros t (img & _ & Ht)%list_elem_of_omap.
  destruct (ListingParser.image_src Element element_get img); [|done].
  by apply clean_str_tidy in Ht.
Qed.

Lemma of_opt_tidy (o : option string) :
  (∀ t, o = Some t → tidy_from true t = true) →
  of_opt o = VNone ∨ ∃ s, of_opt o = VStr s ∧ tidy_from true s = true.
Proof.
  intros Ho. destruct o as [t|]; [right|by left].
  exists t. split; [done|]. by apply Ho.
Qed.

Lemma parsed_field (html url : string) k v :
  parse_page html url !! k = Some v →
  (k ∈ TEXT_KEYS ∧
   (v = VNone ∨ ∃ s, v = VStr s ∧ tidy_from true s = true)) ∨
  (k ∈ (FEATURE_KEYS ++ ["images"])%list ∧
   ∃ l, v = texts l ∧ NoDup l ∧ Forall (fun t => tidy_from true t = true) l).
Proof.
  unfold ListingParser.parse_listing_page. cbv zeta.
  apply (list_to_map_Forall (fun k v =>
    (k ∈ TEXT_KEYS ∧
     (v = VNone ∨ ∃ s, v = VStr s ∧ tidy_from true s = true)) ∨
    (k ∈ (FEATURE_KEYS ++ ["images"])%list ∧
     ∃ l, v = texts l ∧ NoDup l ∧
          Forall (fun t => tidy_from true t = true) l))).
  repeat (apply Forall_cons; split;
    [ cbn [fst snd];
      first
        [ left; split;
          [ by_compute
          | apply of_opt_tidy; intros t;
            first [ apply select_text_tidy | apply clean_str_tidy ] ]
        | right; split;
          [ by_compute
          | eexists; split; [reflexivity|]; split;
            first
              [ rewrite select_all_texts_dedup; apply dedup_first_NoDup
              | apply select_all_texts_tidy
              | rewrite images_dedup; apply dedup_first_NoDup
              | apply images_tidy ] ] ]
    | ]).
  constructor.
Qed.

Lemma parsed_keys (html url : string) k :
  is_Some (parse_page html url !! k) ↔ k ∈ RAW_KEYS.
Proof.
  unfold ListingParser.parse_listing_page. cbv zeta.
  rewrite list_to_map_is_Some. cbn [fmap list_fmap fst].
  match goal with
  | |- _ ∈ ?l ↔ _ =>
      assert (H1 : Forall (fun x => x ∈ RAW_KEYS) l) by by_compute;
      assert (H2 : Forall (fun x => x ∈ l) RAW_KEYS) by by_compute
  end.
  rewrite Forall_forall in H1, H2. split; [apply H1|apply H2].
Qed.

Lemma list_key_not_text k : k ∈ (FEATURE_KEYS ++ ["images"])%list → k ∉ TEXT_KEYS.
Proof.
  intros Hk Hin.
  assert (Hdisj : Forall (fun k => k ∉ TEXT_KEYS) (FEATURE_KEYS ++ ["images"])%list)
    by by_compute.
  rewrite Forall_forall in Hdisj. by apply (Hdisj k Hk).
Qed.

(** X14. A parsed record holds the 31 fields of the output and nothing else;
    its [url] is the cleaned URL of the page; every text field is [None] or
    a cleaned text; the feature lists and the images are lists of cleaned
    texts without duplicates. *)
Theorem parse_listing_page_shape (html url : string) :
  (∀ k, is_Some (parse_page html url !! k) ↔ k ∈ RAW_KEYS) ∧
  raw_record (parse_page html url) ∧
  parse_page html url !! "url" = Some (of_opt (clean_str url)) ∧
  (∀ k, k ∈ TEXT_KEYS →
     parse_page html url !! k = Some VNone ∨
     ∃ s, parse_page html url !! k = Some (VStr s) ∧ text_normal s) ∧
  (∀ k, k ∈ (FEATURE_KEYS ++ ["images"])%list →
     ∃ l, parse_page html url !! k = Some (texts l) ∧
          NoDup l ∧ Forall text_normal l).
Proof.
  split; [apply parsed_keys|].
  split; [intros k; apply parsed_keys|].
  split.
  { unfold ListingParser.parse_listing_page. cbv zeta.
    apply elem_of_list_to_map_1; [by_compute|].
    do 1 apply list_elem_of_further. apply list_elem_of_here. }
  split.
  - intros k Hk.
    assert (Hsome : is_Some (parse_page html url !! k)).
    { apply parsed_keys, raw_key_cases. by left. }
    destruct Hsome as [v Hv]. rewrite Hv.
    destruct (parsed_field _ _ _ _ Hv) as [[_ [->|(s & -> & Hs)]]|[Hl _]].
    + by left.
    + right. exists s. split; [done|]. by apply tidy_text_normal.
    + by apply list_key_not_text in Hl.
  - intros k Hk.
    assert (Hsome : is_Some (parse_page html url !! k)).
    { apply parsed_keys. unfold RAW_KEYS. apply elem_of_app. by right. }
    destruct Hsome as [v Hv]. rewrite Hv.
    destruct (parsed_field _ _ _ _ Hv) as [[Ht _]|[_ (l & -> & Hnd & Hl)]].
    + by apply list_key_not_text in Hk.
    + exists l. split; [done|]. split; [done|]. by apply tidy_Forall_normal.
Qed.

(** X15. Normalization keeps every field of a parsed record as the parser
    wrote it: the texts are already clean and the lists already distinct,
    so [normalize_listing] only adds the derived fields. *)
Theorem normalize_keeps_parsed (str_of_list : list value → string)
    (html url : string) :
  parse_page html url ⊆ normalize_listing str_of_list (parse_page html url).
Proof.
  apply map_subseteq_spec. intros k v Hv.
  assert (Hget : get (parse_page html url) k = v) by (unfold get; by rewrite Hv).
  destruct (parsed_field _ _ _ _ Hv) as [[Hk Hshape]|[Hk (l & -> & Hnd & Hl)]].
  - rewrite normalize_listing_text, Hget by done.
    destruct Hshape as [->|(s & -> & Hs)]; [done|].
    cbn [clean_text py_str]. by rewrite (clean_str_fixed s Hs).
  - apply elem_of_app in Hk as [Hk|Hk%list_elem_of_singleton].
    + rewrite normalized_feature, Hget by done. unfold texts.
      by rewrite omap_clean_tidy.
    + subst k. rewrite normalized_images, Hget. unfold texts.
      by rewrite omap_clean_tidy, dedup_first_NoDup_id.
Qed.

(** X16. A search page gives every detail link once, in the order of the first
    anchors that carry it; an anchor without [href], or with an empty one,
    gives nothing.  The next page comes from the first of the three
    next-link selectors that finds an anchor, and only if that anchor has a
    non-empty [href]. *)
Theorem parse_search_page_links (html base_url : string) :
  NoDup (parse_search html base_url).1 ∧
  (∀ u, u ∈ (parse_search html base_url).1 ↔
     ∃ a href, a ∈ select (make_soup html) ListingParser.DETAIL_LINKS ∧
               element_get a "href" = Some href ∧ href ≠ EmptyString ∧
               u = urljoin base_url href) ∧
  (∀ u, (parse_search html base_url).2 = Some u ↔
     ∃ a href,
       first_some (select_one (make_soup html) ("a[rel=" +:+ quoted "next" +:+ "]"))
         (first_some
            (select_one (make_soup html) ("a[aria-label*=" +:+ quoted "Next" +:+ "]"))
            (select_one (make_soup html) ("a[aria-label*=" +:+ quoted "Weiter" +:+ "]")))
       = Some a ∧
       element_get a "href" = Some href ∧ href ≠ EmptyString ∧
       u = urljoin base_url href).
Proof.
  unfold ListingParser.parse_search_page. cbv zeta. cbn [fst snd].
  set (g := fun a : Element =>
              match element_get a "href" with
              | Some href =>
                  if nonempty href then Some (urljoin base_url href) else None
              | None => None
              end).
  assert (Hfold : ∀ l,
    foldl (ListingParser.add_link Element element_get urljoin base_url) [] l
    = dedup_first (omap g l)).
  { intros l. rewrite <- foldl_append_new_nil. apply foldl_add_opt.
    intros acc a. unfold ListingParser.add_link, g.
    destruct (element_get a "href") as [href|]; [|done].
    by destruct (nonempty href). }
  rewrite Hfold. split; [apply dedup_first_NoDup|]. split.
  - intros u. rewrite dedup_first_elem, list_elem_of_omap. split.
    + intros (a & Ha & Hg). unfold g in Hg.
      destruct (element_get a "href") as [href|] eqn:Hh; [|done].
      destruct (nonempty href) eqn:Hne; [|done].
      injection Hg as <-. exists a, href. repeat split; try done.
      by apply nonempty_true.
    + intros (a & href & Ha & Hh & Hne & ->). exists a. split; [done|].
      unfold g. rewrite Hh. by apply nonempty_true in Hne as ->.
  - intros u. destruct (first_some _ _) as [a|].
    + destruct (element_get a "href") as [href|] eqn:Hh.
      * destruct (nonempty href) eqn:Hne.
        -- split.
           ++ intros [= <-]. exists a, href. repeat split; try done.
              by apply nonempty_true.
           ++ intros (a' & href' & [= <-] & Hh' & _ & ->).
              rewrite Hh in Hh'. by injection Hh' as <-.
        -- split; [done|].
           intros (a' & href' & [= <-] & Hh' & Hne' & _).
           rewrite Hh in Hh'. injection Hh' as <-.
           by apply nonempty_false in Hne.
      * split; [done|]. intros (a' & href' & [= <-] & Hh' & _).
        by rewrite Hh in Hh'.
    + split; [done|]. by intros (a' & href' & ? & _).
Qed.

End ParserFacts.

Lemma select_text_first_match_witness :
  ListingParser.select_text _ _ toy_select_one toy_text toy_page
    [ testid "seller-name"; "div.dealer-info h2"; ".cldt-vendor-contact-box h2" ]
  = Some "Auto Haus".
Proof.
  apply (proj2 (select_text_first_match _ _ toy_select_one toy_text toy_page
                  [ testid "seller-name"; "div.dealer-info h2";
                    ".cldt-vendor-contact-box h2" ] "Auto Haus")).
  exists [testid "seller-name"], "div.dealer-info h2",
    [".cldt-vendor-contact-box h2"], ("Auto  Haus", []).
  split; [reflexivity|]. split; [by vm_compute|]. split; [by vm_compute|].
  intros sel' el' ->%list_elem_of_singleton. vm_compute. by intros [= <-].
Defined.

Lemma select_all_texts_distinct_witness :
  NoDup (ListingParser.select_all_texts _ _ toy_select toy_text toy_page
           [ testid "comfort-features" +:+ " li"; "ul.comfort-features li" ]) ∧
  ListingParser.select_all_texts _ _ toy_select toy_text toy_page
    [ testid "comfort-features" +:+ " li"; "ul.comfort-features li" ]
  = ["Air conditioning"; "Sunroof"].
Proof.
  split.
  - apply (select_all_texts_distinct _ _ toy_select toy_text toy_page).
  - by vm_compute.
Defined.

Lemma parse_listing_page_shape_witness :
  raw_record (toy_parse_listing EmptyString " https://example.org/offers/1 ") ∧
  toy_parse_listing EmptyString " https://example.org/offers/1 " !! "url"
  = Some (VStr "https://example.org/offers/1").
Proof.
  destruct (parse_listing_page_shape _ _ (fun _ => toy_page) toy_select
              toy_select_one toy_text toy_get EmptyString
              " https://example.org/offers/1 ") as (_ & Hraw & Hurl & _).
  split; [exact Hraw|]. exact Hurl.
Defined.

Lemma normalize_keeps_parsed_witness :
  normalize_listing (fun _ => EmptyString)
    (toy_parse_listing EmptyString "https://example.org/offers/1") !! "dealerName"
  = Some (VStr "Auto Haus").
Proof.
  assert (Hparsed : toy_parse_listing EmptyString "https://example.org/offers/1"
                      !! "dealerName" = Some (VStr "Auto Haus"))
    by (by vm_compute).
  eapply lookup_weaken; [exact Hparsed|].
  apply (normalize_keeps_parsed _ _ (fun _ => toy_page) toy_select
           toy_select_one toy_text toy_get).
Defined.

Lemma parse_search_page_links_witness :
  NoDup (toy_parse_search EmptyString SITE).1 ∧
  toy_parse_search EmptyString SITE
  = ([SITE +:+ "/offers/1"; SITE +:+ "/offers/2"], Some (SITE +:+ "/lst?page=2")).
Proof.
  split.
  - apply (parse_search_page_links _ _ (fun _ => toy_page) toy_select
             toy_select_one toy_get (fun base href => base +:+ href)).
  - by vm_compute.
Defined.


(** * The proxy manager *)

Lemma env_entries_elem (raw : option string) p :
  p ∈ ProxyManager.env_entries raw ↔
  p ≠ EmptyString ∧ ∃ r part, raw = Some r ∧ part ∈ split_comma r ∧ p = strip part.
Proof.
  unfold ProxyManager.env_entries. destruct raw as [r|].
  - destruct (nonempty r) eqn:Hr.
    + rewrite list_elem_of_filter, list_elem_of_fmap, nonempty_true. split.
      * intros [Hp (part & -> & Hpart)]. split; [done|]. by exists r, part.
      * intros [Hp (r' & part & [= <-] & Hpart & ->)]. split; [done|].
        by exists part.
    + split; [by intros ?%elem_of_nil|].
      intros [Hp (r' & part & [= <-] & Hpart & ->)].
      apply nonempty_false in Hr as ->. cbn in Hpart.
      by apply list_elem_of_singleton in Hpart as ->.
  - split; [by intros ?%elem_of_nil|]. by intros [_ (r & part & ? & _)].
Qed.

(** X17. The pool of a manager: the explicit proxies that are not empty, as
    given, and the stripped non-blank entries of [HTTP_PROXIES] and
    [HTTPS_PROXIES] when the environment is used.  No proxy of the pool is
    empty, and the manager has proxies exactly when the pool is not
    empty. *)
Theorem configured_proxies (explicit : option (list string)) (use_env : bool)
    (getenv : string → option string) :
  (∀ p, p ∈ ProxyManager.proxies (ProxyManager.init explicit use_env getenv) ↔
     p ≠ EmptyString ∧
     (p ∈ default [] explicit ∨
      use_env = true ∧
      ∃ key raw part,
        (key = "HTTP_PROXIES" ∨ key = "HTTPS_PROXIES") ∧
        getenv key = Some raw ∧ part ∈ split_comma raw ∧ p = strip part)) ∧
  (ProxyManager.has_proxies (ProxyManager.init explicit use_env getenv) = true ↔
   ∃ p, p ∈ ProxyManager.proxies (ProxyManager.init explicit use_env getenv)).
Proof.
  split.
  - intros p. unfold ProxyManager.init. cbn [ProxyManager.proxies].
    rewrite list_elem_of_filter, nonempty_true, elem_of_app.
    split; intros [Hp Hsrc]; (split; [done|]).
    + destruct Hsrc as [Hex|Henv]; [by left|right].
      destruct use_env; [|by apply elem_of_nil in Henv]. split; [done|].
      apply elem_of_app in Henv
        as [(_ & r & part & Hr & Hpart & ->)%env_entries_elem
           |(_ & r & part & Hr & Hpart & ->)%env_entries_elem].
      * exists "HTTP_PROXIES", r, part. by repeat split; try left.
      * exists "HTTPS_PROXIES", r, part. by repeat split; try right.
    + destruct Hsrc as [Hex|[-> (key & r & part & Hkey & Hr & Hpart & ->)]];
        [by left|right].
      apply elem_of_app.
      destruct Hkey as [-> | ->]; [left|right];
        apply env_entries_elem; (split; [done|]); by exists r, part.
  - unfold ProxyManager.has_proxies.
    destruct (ProxyManager.proxies _) as [|p l].
    + split; [done|]. by intros [p ?%elem_of_nil].
    + split; [|done]. intros _. exists p. by left.
Qed.

Lemma configured_proxies_witness :
  ProxyManager.proxies (ProxyManager.init (Some [" http://c:3"; EmptyString]) true example_env)
  = [" http://c:3"; "http://a:1"; "http://b:2"] ∧
  "http://a:1" ∈ ProxyManager.proxies
    (ProxyManager.init (Some [" http://c:3"; EmptyString]) true example_env).
Proof.
  split; [by vm_compute|].
  apply (proj1 (configured_proxies (Some [" http://c:3"; EmptyString]) true
                  example_env)).
  split; [done|]. right. split; [done|].
  exists "HTTP_PROXIES", " http://a:1 ,, http://b:2", " http://a:1 ".
  split; [by left|]. split; [by vm_compute|]. split; [|by vm_compute].
  vm_compute. by left.
Defined.

Lemma drop_lookup_cons (l : list string) j p :
  l !! j = Some p → drop j l = p :: drop (S j) l.
Proof.
  revert j. induction l as [|x l IH]; intros [|j]; try done.
  - by intros [= ->].
  - cbn. apply IH.
Qed.

Lemma round_robin_from (l : list string) (k j : nat) :
  Forall (fun p => nonempty p = true) l →
  (0 < length l)%nat → (j ≤ length l)%nat →
  ∃ p, l !! ((j + k) mod length l)%nat = Some p ∧
       (ProxyManager.get_next
          (ProxyManager.after_calls k
             (ProxyManager.Manager l
                (Some (ProxyManager.Cycle (drop j l) l))))).1
       = Some (<["http" := p]> (<["https" := p]> ∅)).
Proof.
  intros Hne Hpos. revert j. induction k as [|k IH]; intros j Hj.
  - cbn [ProxyManager.after_calls]. rewrite Nat.add_0_r.
    unfold ProxyManager.get_next, ProxyManager.cycle_next.
    cbn [ProxyManager.iterator ProxyManager.rest ProxyManager.items].
    destruct (decide (j < length l)%nat) as [Hlt|Hge].
    + destruct (lookup_lt_is_Some_2 l j Hlt) as [p Hp].
      rewrite (drop_lookup_cons _ _ _ Hp). exists p.
      rewrite Nat.mod_small by done. split; [done|].
      rewrite Forall_forall in Hne.
      by rewrite (Hne p) by by eapply list_elem_of_lookup_2.
    + assert (j = length l) as -> by lia. rewrite drop_all.
      rewrite Nat.Div0.mod_same. destruct l as [|p r]; [cbn in Hpos; lia|].
      exists p. split; [done|]. apply Forall_cons in Hne as [-> _]. done.
  - cbn [ProxyManager.after_calls].
    assert (Hstep : ∃ j', (j' ≤ length l)%nat ∧
              ((j' + k) mod length l = (j + S k) mod length l)%nat ∧
              (ProxyManager.get_next
                 (ProxyManager.Manager l
                    (Some (ProxyManager.Cycle (drop j l) l)))).2
              = ProxyManager.Manager l (Some (ProxyManager.Cycle (drop j' l) l))).
    { unfold ProxyManager.get_next, ProxyManager.cycle_next.
      cbn [ProxyManager.iterator ProxyManager.rest ProxyManager.items
           ProxyManager.proxies].
      destruct (decide (j < length l)%nat) as [Hlt|Hge].
      - destruct (lookup_lt_is_Some_2 l j Hlt) as [p Hp].
        rewrite (drop_lookup_cons _ _ _ Hp). exists (S j).
        split; [lia|]. split; [f_equal; lia|].
        by destruct (nonempty p).
      - assert (j = length l) as -> by lia. rewrite drop_all.
        destruct l as [|p r] eqn:Hl; [cbn in Hpos; lia|].
        exists 1%nat. split; [cbn; lia|]. split.
        + replace (length (p :: r) + S k)%nat
            with (1 + k + 1 * length (p :: r))%nat by lia.
          by rewrite Nat.Div0.mod_add.
        + by destruct (nonempty p). }
    destruct Hstep as (j' & Hj' & Hmod & ->).
    rewrite <- Hmod. by apply IH.
Qed.

(** X18. [get_next] hands the proxies out in turn: the call number [k] (from 0)
    of a manager with [n] proxies returns proxy [k mod n] of the pool under
    both schemes, and never [None]; a manager without proxies returns
    [None] at every call. *)
Theorem get_next_round_robin (explicit : option (list string)) (use_env : bool)
    (getenv : string → option string) (k : nat) :
  (ProxyManager.has_proxies (ProxyManager.init explicit use_env getenv) = false →
   (ProxyManager.get_next
      (ProxyManager.after_calls k (ProxyManager.init explicit use_env getenv))).1
   = None) ∧
  (ProxyManager.has_proxies (ProxyManager.init explicit use_env getenv) = true →
   ∃ p,
     ProxyManager.proxies (ProxyManager.init explicit use_env getenv)
       !! (k mod length
             (ProxyManager.proxies (ProxyManager.init explicit use_env getenv)))%nat
     = Some p ∧
     (ProxyManager.get_next
        (ProxyManager.after_calls k (ProxyManager.init explicit use_env getenv))).1
     = Some (<["http" := p]> (<["https" := p]> ∅))).
Proof.
  unfold ProxyManager.init, ProxyManager.has_proxies.
  cbn [ProxyManager.proxies].
  set (l := filter (fun p => nonempty p = true) _).
  assert (Hne : Forall (fun p => nonempty p = true) l).
  { apply Forall_forall. intros p Hp. by apply list_elem_of_filter in Hp as [? _]. }
  destruct l as [|p0 r] eqn:Hl.
  - split; [intros _|done]. clear. induction k as [|k IH]; [done|].
    cbn [ProxyManager.after_calls]. exact IH.
  - split; [done|intros _]. rewrite <- Hl in *.
    assert (Hpos : (0 < length l)%nat) by (rewrite Hl; cbn; lia).
    destruct (round_robin_from l k 0 Hne Hpos ltac:(lia)) as (p & Hp & Hget).
    exists p. by split.
Qed.

Lemma get_next_round_robin_witness :
  (ProxyManager.get_next
     (ProxyManager.after_calls 4
        (ProxyManager.init (Some [" http://c:3"; EmptyString]) true example_env))).1
  = Some (<["http" := "http://a:1"]> (<["https" := "http://a:1"]> ∅)).
Proof.
  destruct (proj2 (get_next_round_robin (Some [" http://c:3"; EmptyString]) true
                     example_env 4) ltac:(by vm_compute)) as (p & Hp & Hget).
  vm_compute in Hp. injection Hp as <-. exact Hget.
Defined.


(** * The dealer summary of a run *)

Section RunSummary.

Variable fetch_url : string → option string.
Variable parse_search_page : string → string → list string * option string.
Variable parse_listing_page : string → string → outcome (gmap string value).
Variable url_path : string → string.
Variable str_of_list : list value → string.
Variable max_records : Z.
Variable as_completed :
  list (string * outcome (option (gmap string value))) →
  list (string * outcome (option (gmap string value))).

Hypothesis as_completed_perm : ∀ futures, as_completed futures ≡ₚ futures.

Local Abbreviation run :=
  (scrape fetch_url parse_search_page parse_listing_page url_path str_of_list
     max_records as_completed).
Local Abbreviation task :=
  (scrape_single_listing fetch_url parse_listing_page str_of_list).

Lemma run_records_normalized (fuel : nat) (seeds : list string) results :
  run fuel seeds = Some (Returned results) →
  Forall (fun r => ∃ raw, r = normalize_listing str_of_list raw) results.
Proof.
  unfold scrape.
  destruct (prepare_listing_urls _ _ _ _ fuel seeds) as [[urls log]|]; [|done].
  intros [= Hrun].
  destruct (scrape_urls_records fetch_url parse_listing_page str_of_list
              as_completed as_completed_perm urls) as (results' & Hrun' & Hperm).
  rewrite Hrun in Hrun'. injection Hrun' as <-.
  apply Forall_forall. intros r Hr. rewrite Hperm in Hr.
  apply list_elem_of_omap in Hr as (url & _ & Hrec).
  unfold scrape_single_listing in Hrec.
  destruct (fetch_url url) as [html|]; [|done].
  destruct (nonempty html); [|done].
  destruct (parse_listing_page html url) as [raw|e]; [|done].
  cbn in Hrec. injection Hrec as <-. by exists raw.
Qed.

(** X19. The dealer summary that [main] builds from the records of a run is
    always built: no record of a run makes [build_summary] raise.  Its
    listing counts add up to the number of records, and each of its keys is
    the sentinel or a cleaned dealer name. *)
Theorem summary_of_run (fuel : nat) (seeds : list string)
    (results : list (gmap string value)) :
  run fuel seeds = Some (Returned results) →
  ∃ summary,
    build_summary results = Returned summary ∧
    total_count summary = len results ∧
    ∀ d, is_Some (summary !! d) → d = UNKNOWN_DEALER ∨ text_normal d.
Proof.
  intros Hnorm%run_records_normalized.
  assert (Hok : Forall dealer_named results).
  { eapply Forall_impl; [exact Hnorm|]. intros r [raw ->].
    destruct (dealer_name_of_normalized str_of_list raw) as (d & Hd & _).
    by exists d. }
  destruct (summary_loop_total results [] (∅, ∅) summary_state_init eq_refl Hok)
    as ([summary counter] & Hloop & Htot).
  exists summary. unfold build_summary. rewrite Hloop.
  split; [done|]. split; [done|].
  destruct (build_summary_lookup results Hok) as (summary' & Hrun & Hlook).
  unfold build_summary in Hrun. rewrite Hloop in Hrun.
  cbn in Hrun. injection Hrun as <-.
  intros d. rewrite Hlook, fmap_is_Some, head_records_of.
  intros (r & Hr & Hd). rewrite Forall_forall in Hnorm.
  destruct (Hnorm r Hr) as [raw ->].
  destruct (dealer_name_of_normalized str_of_list raw) as (d' & Hd' & Hform).
  congruence.
Qed.

End RunSummary.

Lemma summary_of_run_witness :
  ∃ results summary,
    scrape site_fetch site_parse site_parse_listing site_path
      (fun _ => EmptyString) 2 reverse 4 [SITE +:+ "/lst?page=1"]
    = Some (Returned results) ∧
    build_summary results = Returned summary ∧
    total_count summary = 2.
Proof.
  eexists.
  destruct (summary_of_run site_fetch site_parse site_parse_listing site_path
              (fun _ => EmptyString) 2 reverse
              (fun l => reverse_Permutation l) 4 [SITE +:+ "/lst?page=1"] _
              eq_refl) as (summary & Hrun & Htot & _).
  exists summary. split; [reflexivity|]. split; [exact Hrun|exact Htot].
Defined.


(** * Settings *)

(** The merged settings, key by key. *)
Lemma merged_lookup (base override : gmap string json) k :
  merge_settings base override !! k =
    match override !! k with
    | Some (JDict o) =>
        match base !! k with
        | Some (JDict b) => Some (JDict (merge_settings b o))
        | _ => Some (JDict o)
        end
    | Some JNull | None => base !! k
    | Some v => Some v
    end.
Proof.
  unfold merge_settings at 1. cbn [merge_into]. revert k.
  apply (map_fold_weak_ind (fun (r m : gmap string json) => ∀ k,
    r !! k =
      match m !! k with
      | Some (JDict o) =>
          match base !! k with
          | Some (JDict b) => Some (JDict (merge_settings b o))
          | _ => Some (JDict o)
          end
      | Some JNull | None => base !! k
      | Some v => Some v
      end)).
  - intros k. by rewrite lookup_empty.
  - intros i x m r Hi IH k.
    pose proof (IH i) as Hri. rewrite Hi in Hri.
    destruct (decide (k = i)) as [->|Hne].
    + rewrite lookup_insert_eq, Hri.
      destruct x as [|b|n|s|l|o]; rewrite ?lookup_insert_eq; try done.
      destruct (base !! i) as [[|b|n|s|l|sub]|]; by rewrite lookup_insert_eq.
    + rewrite lookup_insert_ne by done. rewrite <- IH.
      destruct x as [|b|n|s|l|o]; rewrite ?lookup_insert_ne by done; try done.
      destruct (r !! i) as [[|b|n|s|l|sub]|]; by rewrite lookup_insert_ne.
Qed.

(** X20. [merge_settings] key by key: a [None] in the override leaves the base
    value, two dictionaries are merged, any other override value replaces
    the base value.  So no key of the base is lost, and an empty override
    changes nothing. *)
Theorem merge_settings_lookup (base override : gmap string json) :
  (∀ k, merge_settings base override !! k =
     match override !! k with
     | Some (JDict o) =>
         match base !! k with
         | Some (JDict b) => Some (JDict (merge_settings b o))
         | _ => Some (JDict o)
         end
     | Some JNull | None => base !! k
     | Some v => Some v
     end) ∧
  (∀ k, is_Some (base !! k) → is_Some (merge_settings base override !! k)) ∧
  (∀ k, merge_settings base override !! k = Some JNull → base !! k = Some JNull) ∧
  merge_settings base ∅ = base.
Proof.
  split; [apply merged_lookup|]. split; [|split].
  - intros k Hk. rewrite merged_lookup.
    destruct (override !! k) as [[|b|n|s|l|o]|]; try done.
    destruct (base !! k) as [[|b|n|s|l|sub]|]; done.
  - intros k. rewrite merged_lookup.
    destruct (override !! k) as [[|b|n|s|l|o]|]; try done.
    destruct (base !! k) as [[|b|n|s|l|sub]|]; done.
  - apply map_eq. intros k. by rewrite merged_lookup, lookup_empty.
Qed.

Lemma merge_settings_lookup_witness :
  merge_settings example_base example_override !! "outputFormat"
  = Some (JStr "json") ∧
  merge_settings example_base example_override !! "network"
  = Some (JDict (<["timeoutSeconds" := JNum 5]> (<["retries" := JNum 2]> ∅))).
Proof.
  destruct (merge_settings_lookup example_base example_override)
    as (Hlook & _ & _ & _).
  split.
  - rewrite Hlook. by vm_compute.
  - rewrite Hlook. by vm_compute.
Defined.

Lemma json_depth_lookup (d : gmap string json) k v :
  d !! k = Some v → (json_depth v < json_depth (JDict d))%nat.
Proof.
  cbn [json_depth]. intros Hk. apply Nat.lt_succ_r. revert k v Hk.
  apply (map_fold_weak_ind (fun (r : nat) (m : gmap string json) =>
    ∀ k v, m !! k = Some v → (json_depth v ≤ r)%nat)).
  - intros k v. by rewrite lookup_empty.
  - intros i x m r Hi IH k v. destruct (decide (k = i)) as [->|Hne].
    + rewrite lookup_insert_eq. intros [= ->]. lia.
    + rewrite lookup_insert_ne by done. intros Hk%IH. lia.
Qed.

Lemma merge_settings_fixed (n : nat) :
  ∀ override, (json_depth (JDict override) ≤ n)%nat →
    merge_settings override override = override ∧
    ∀ base, merge_settings (merge_settings base override) override
            = merge_settings base override.
Proof.
  induction n as [|n IH]; intros override Hd; [cbn in Hd; lia|].
  assert (Hsub : ∀ k o, override !! k = Some (JDict o) →
            merge_settings o o = o ∧
            ∀ b, merge_settings (merge_settings b o) o = merge_settings b o).
  { intros k o Hk. apply IH. apply json_depth_lookup in Hk. lia. }
  split.
  - apply map_eq. intros k. rewrite merged_lookup.
    destruct (override !! k) as [[|b|m|s|l|o]|] eqn:Hk; try done.
    by rewrite (proj1 (Hsub k o Hk)).
  - intros base. apply map_eq. intros k.
    rewrite (merged_lookup (merge_settings base override)).
    rewrite !merged_lookup.
    destruct (override !! k) as [[|b|m|s|l|o]|] eqn:Hk; try done.
    destruct (Hsub k o Hk) as [Hself Hagain].
    destruct (base !! k) as [[|b|m|s|l|sub]|]; by rewrite ?Hself, ?Hagain.
Qed.

(** X21. Merging the same override a second time changes nothing, and settings
    merged with themselves stay as they are. *)
Theorem merge_settings_idempotent (base override : gmap string json) :
  merge_settings (merge_settings base override) override
  = merge_settings base override ∧
  merge_settings override override = override.
Proof.
  destruct (merge_settings_fixed (json_depth (JDict override)) override
              ltac:(lia)) as [Hself Hagain].
  by split.
Qed.


(** * Start URLs *)

Lemma strip_idem s : strip (strip s) = strip s.
Proof.
  destruct (strip_shape s) as [->|(c & r & -> & Hc & Hr)]; [done|].
  unfold strip. cbn [lstrip]. rewrite Hc. cbn [rstrip]. rewrite Hr.
  destruct r; [by rewrite Hc|done].
Qed.

Lemma stripped_seeds_fixed (urls : list string) :
  Forall (fun u => u ≠ EmptyString ∧ strip u = u) urls →
  stripped_seeds urls = urls.
Proof.
  unfold stripped_seeds. induction 1 as [|u urls [Hne Hu] _ IH]; [done|].
  csimpl. rewrite Hu, filter_cons_True by by apply nonempty_true.
  by rewrite IH.
Qed.

Section StartUrlsFacts.

Variable json_repr : json → string.

Local Abbreviation read := (read_start_urls json_repr).

(** X22. The start URLs [main] hands to the scraper: [read_start_urls] either
    raises [ValueError] or returns a list that is not empty and whose
    entries are stripped and not blank, so seed preparation drops none of
    them.  A list from the settings wins: when it gives a URL, the file of
    test URLs is not looked at. *)
Theorem read_start_urls_clean (input_cfg : gmap string json)
    (test_urls : option (list string)) :
  (∀ e, read input_cfg test_urls = Raised e → e = "ValueError") ∧
  (∀ urls, read input_cfg test_urls = Returned urls →
     urls ≠ [] ∧
     Forall (fun u => u ≠ EmptyString ∧ strip u = u) urls ∧
     stripped_seeds urls = urls) ∧
  (∀ urls, read input_cfg None = Returned urls →
     read input_cfg test_urls = Returned urls).
Proof.
  unfold read_start_urls.
  set (start_urls := if json_truthy _ then _ else _).
  set (urls0 := match start_urls with JList l => _ | _ => [] end).
  assert (H0 : Forall (fun u => u ≠ EmptyString ∧ strip u = u) urls0).
  { unfold urls0. destruct start_urls as [|b|n|s|l|d]; try by constructor.
    apply Forall_forall. intros u [Hu Hin]%list_elem_of_filter.
    apply nonempty_true in Hu. split; [done|].
    apply list_elem_of_fmap in Hin as (v & -> & _). apply strip_idem. }
  assert (Hfile : ∀ lines : list string,
    Forall (fun u => u ≠ EmptyString ∧ strip u = u)
      (filter (fun line => nonempty line && negb (starts_with "#" line) = true)
         (strip <$> lines))).
  { intros lines. apply Forall_forall. intros u [Hu Hin]%list_elem_of_filter.
    apply andb_true_iff in Hu as [Hu%nonempty_true _]. split; [done|].
    apply list_elem_of_fmap in Hin as (v & -> & _). apply strip_idem. }
  split; [|split].
  - intros e. destruct urls0 as [|u0 r0]; [|done].
    destruct test_urls as [lines|]; [|by intros [= <-]].
    destruct (filter _ _); [by intros [= <-]|done].
  - intros urls. destruct urls0 as [|u0 r0].
    + destruct test_urls as [lines|]; [|done].
      pose proof (Hfile lines) as Hl.
      destruct (filter _ _) as [|u r]; [done|]. intros [= <-].
      split; [done|]. split; [done|]. by apply stripped_seeds_fixed.
    + intros [= <-]. split; [done|]. split; [done|].
      by apply stripped_seeds_fixed.
  - intros urls. by destruct urls0 as [|u0 r0].
Qed.

End StartUrlsFacts.

Lemma read_start_urls_clean_witness :
  read_start_urls (fun _ => EmptyString)
    (merge_settings example_base example_override)
    (Some ["# seeds"; SITE +:+ "/offers/9"])
  = Returned [SITE +:+ "/lst?page=1"] ∧
  stripped_seeds [SITE +:+ "/lst?page=1"] = [SITE +:+ "/lst?page=1"].
Proof.
  assert (Hread : read_start_urls (fun _ => EmptyString)
            (merge_settings example_base example_override) None
          = Returned [SITE +:+ "/lst?page=1"]) by (by vm_compute).
  destruct (read_start_urls_clean (fun _ => EmptyString)
              (merge_settings example_base example_override)
              (Some ["# seeds"; SITE +:+ "/offers/9"]))
    as (_ & Hclean & Hcfg).
  pose proof (Hcfg _ Hread) as Hfull.
  split; [exact Hfull|]. by destruct (Hclean _ Hfull) as (_ & _ & ?).
Defined.


(** * The proxies of the settings *)

Lemma filter_nonempty_fixed (l : list string) :
  Forall (fun p => p ≠ EmptyString ∧ strip p = p) l →
  filter (fun p => nonempty p = true) l = l.
Proof.
  induction 1 as [|p l [Hp _] _ IH]; [done|].
  rewrite filter_cons_True by by apply nonempty_true. by rewrite IH.
Qed.

Lemma stripped_entries {A} (g : A → string) (l : list A) :
  Forall (fun p => p ≠ EmptyString ∧ strip p = p)
    (filter (fun p => nonempty p = true) ((fun x => strip (g x)) <$> l)).
Proof.
  apply Forall_forall. intros p [Hp Hin]%list_elem_of_filter.
  apply nonempty_true in Hp. split; [done|].
  apply list_elem_of_fmap in Hin as (x & -> & _). apply strip_idem.
Qed.

Lemma env_entries_stripped (raw : option string) :
  Forall (fun p => p ≠ EmptyString ∧ strip p = p) (ProxyManager.env_entries raw).
Proof.
  unfold ProxyManager.env_entries. destruct raw as [r|]; [|constructor].
  destruct (nonempty r); [|constructor].
  apply (stripped_entries id).
Qed.

(** X23. The pool [main] configures: the proxies of the settings key [proxies]
    (or [proxyList]), given as a list or as one comma-separated string,
    then the entries of the two environment variables.  Every proxy of the
    pool is stripped and not blank, so the manager's own filter drops
    nothing. *)
Theorem settings_proxy_pool (json_repr : json → string)
    (settings : gmap string json) (getenv : string → option string) :
  ProxyManager.proxies
    (ProxyManager.init (Some (proxy_list json_repr settings)) true getenv)
  = (proxy_list json_repr settings
     ++ ProxyManager.env_entries (getenv "HTTP_PROXIES")
     ++ ProxyManager.env_entries (getenv "HTTPS_PROXIES"))%list ∧
  Forall (fun p => p ≠ EmptyString ∧ strip p = p)
    (ProxyManager.proxies
       (ProxyManager.init (Some (proxy_list json_repr settings)) true getenv)).
Proof.
  assert (Hall : Forall (fun p => p ≠ EmptyString ∧ strip p = p)
            (proxy_list json_repr settings
             ++ ProxyManager.env_entries (getenv "HTTP_PROXIES")
             ++ ProxyManager.env_entries (getenv "HTTPS_PROXIES"))%list).
  { rewrite !Forall_app. split; [|split; apply env_entries_stripped].
    unfold proxy_list.
    destruct (if json_truthy _ then _ else _) as [|b|n|s|l|d];
      try by constructor.
    - apply (stripped_entries id).
    - apply (stripped_entries (json_str json_repr)). }
  unfold ProxyManager.init. cbn [ProxyManager.proxies default from_option id].
  rewrite (filter_nonempty_fixed _ Hall). by split.
Qed.

Lemma settings_proxy_pool_witness :
  ProxyManager.proxies
    (ProxyManager.init
       (Some (proxy_list (fun _ => EmptyString)
                (<["proxyList" := JStr "http://c:3 , ,http://d:4"]> ∅)))
       true example_env)
  = ["http://c:3"; "http://d:4"; "http://a:1"; "http://b:2"].
Proof.
  rewrite (proj1 (settings_proxy_pool (fun _ => EmptyString)
                    (<["proxyList" := JStr "http://c:3 , ,http://d:4"]> ∅)
                    example_env)).
  by vm_compute.
Defined.
